(** * Signature inference for JS library functions

    A shallow embedding of [tools/maint/gen_sig_info.py]: the symbol filter,
    the stub emitter, the reconciliation of the wasm32 and wasm64 function
    types into a [__sig] string, the merge of the per-configuration results
    and the line-oriented rewriting of [__sig] attributes in the JS sources.

    Conventions of the embedding:
    - Python [str] is [string]; characters are read as ASCII code points
      (the classification tables below cover the range 0..127).
    - A Python [dict] is an insertion-ordered association list ([Dict]),
      because [update_line] iterates over [sig_info.items()] and returns at
      the first hit.
    - An [assert] that fails, a [KeyError] and the like are [None] in the
      pure functions and [Abort] in the stateful merge.
    - The file system is a finite map from relative paths (lists of
      components) to what is there, a regular file with its text or a
      directory. Reading or writing a file can fail, and a loop over files
      that fails leaves the files behind as it rewrote them so far. *)

From Stdlib Require Import String Ascii List Bool Arith Lia.
From stdpp Require Import gmap strings list fin_maps sorting.
Import ListNotations.
Local Open Scope string_scope.

(** ** Python built-ins used by the tool *)

Module Py.

(** The line feed character; Rocq string literals have no escapes. *)
Definition LF : ascii := ascii_of_nat 10.
Definition CR : ascii := ascii_of_nat 13.
Definition nl : string := String LF "".

(** [str.isspace] on ASCII: TAB..CR, FS..US and the blank. *)
Definition is_space (c : ascii) : bool :=
  let n := nat_of_ascii c in
  (((9 <=? n) && (n <=? 13)) || ((28 <=? n) && (n <=? 32)))%nat.

(** The line boundaries of [str.splitlines] on ASCII:
    LF, VT, FF, CR, FS, GS, RS. *)
Definition is_linebreak (c : ascii) : bool :=
  let n := nat_of_ascii c in
  (((10 <=? n) && (n <=? 13)) || ((28 <=? n) && (n <=? 30)))%nat.

(** The class [\w] of [re] on ASCII: letters, digits and the underscore. *)
Definition is_word (c : ascii) : bool :=
  let n := nat_of_ascii c in
  (((48 <=? n) && (n <=? 57)) || ((65 <=? n) && (n <=? 90))
   || ((97 <=? n) && (n <=? 122)) || (n =? 95))%nat.

(** [s.startswith(p)] *)
Fixpoint startswith (s p : string) {struct p} : bool :=
  match p with
  | EmptyString => true
  | String a p' =>
      match s with
      | EmptyString => false
      | String b s' => Ascii.eqb a b && startswith s' p'
      end
  end.

(** [s[n:]] *)
Fixpoint drop (n : nat) (s : string) : string :=
  match n, s with
  | S n', String _ s' => drop n' s'
  | _, _ => s
  end.

(** [s.endswith(x)] *)
Definition endswith (s x : string) : bool :=
  (String.length x <=? String.length s)%nat
  && String.eqb (drop (String.length s - String.length x) s) x.

(** [sub in s] *)
Fixpoint contains (sub s : string) : bool :=
  startswith s sub
  || match s with
     | EmptyString => false
     | String _ s' => contains sub s'
     end.

Fixpoint lstrip (s : string) : string :=
  match s with
  | EmptyString => EmptyString
  | String c s' => if is_space c then lstrip s' else s
  end.

Fixpoint rstrip (s : string) : string :=
  match s with
  | EmptyString => EmptyString
  | String c s' =>
      match rstrip s' with
      | EmptyString => if is_space c then EmptyString else String c EmptyString
      | r => String c r
      end
  end.

(** [s.strip()] *)
Definition strip (s : string) : string := rstrip (lstrip s).

(** [s.splitlines()]. [after_cr] records that the previous character was
    a CR, so that a LF right after it belongs to the same boundary. *)
Fixpoint splitlines_from (after_cr : bool) (s : string) : list string :=
  match s with
  | EmptyString => []
  | String c s' =>
      if after_cr && Ascii.eqb c LF then splitlines_from false s'
      else if is_linebreak c then
        EmptyString :: splitlines_from (Ascii.eqb c CR) s'
      else
        match splitlines_from false s' with
        | [] => [String c EmptyString]
        | x :: xs => String c x :: xs
        end
  end.

Definition splitlines (s : string) : list string := splitlines_from false s.

(** ['\n'.join(lines)] *)
Definition join_lines (lines : list string) : string := String.concat nl lines.

(** *** [dict]: insertion-ordered, keys unique *)
Module Dict.
Section WithValue.
Context {V : Type}.

Definition t := list (string * V).

Definition empty : t := [].

(** [d[k]]; [None] is [KeyError] *)
Fixpoint get (d : t) (k : string) : option V :=
  match d with
  | [] => None
  | (k', v) :: d' => if String.eqb k' k then Some v else get d' k
  end.

(** [k in d] *)
Definition mem (d : t) (k : string) : bool :=
  match get d k with Some _ => true | None => false end.

(** [d[k] = v]: an existing key keeps its position. *)
Fixpoint set (d : t) (k : string) (v : V) : t :=
  match d with
  | [] => [(k, v)]
  | (k', v') :: d' =>
      if String.eqb k' k then (k, v) :: d' else (k', v') :: set d' k v
  end.

Definition items (d : t) : list (string * V) := d.
Definition keys (d : t) : list string := List.map fst d.
End WithValue.
Arguments t : clear implicits.
End Dict.

(** *** The file system

    A tree maps a relative path, given by its components, to what is
    there. The empty path is the working directory. *)
Inductive node : Type :=
| File (text : string)
| Dir.

Abbreviation tree := (gmap (list string) node).

(** [os.path.isdir] *)
Definition is_dir (fs : tree) (path : list string) : bool :=
  match path with
  | [] => true
  | _ => match fs !! path with Some Dir => true | _ => false end
  end.

(** [open(path)] for reading: it raises ([None]) when there is nothing at
    [path] and when [path] is a directory. *)
Definition open_r (path : list string) (fs : tree) : option string :=
  match fs !! path with
  | Some (File text) => Some text
  | _ => None
  end.

(** [open(path, 'w')] followed by the write of [text]: it raises ([None])
    when [path] is empty, when the directory that is to hold the file is
    missing or is a regular file, and when [path] is a directory;
    otherwise the file is created or replaced. *)
Definition open_w (path : list string) (text : string) (fs : tree)
  : option tree :=
  match path with
  | [] => None
  | _ =>
      if is_dir fs (removelast path) && negb (is_dir fs path)
      then Some (<[path := File text]> fs)
      else None
  end.

(** *** [fnmatch] and [glob.glob] (called without [recursive=True]) *)

(** [fnmatch] for patterns made of literals, [?] and [*]; bracket
    classes do not occur in the patterns of the tool. *)
Fixpoint fnmatch (pat name : string) {struct pat} : bool :=
  match pat with
  | EmptyString => match name with EmptyString => true | _ => false end
  | String p pat' =>
      if Ascii.eqb p "*" then
        (fix star (n : string) : bool :=
           fnmatch pat' n
           || match n with
              | EmptyString => false
              | String _ n' => star n'
              end) name
      else
        match name with
        | EmptyString => false
        | String c name' =>
            (Ascii.eqb p "?" || Ascii.eqb p c) && fnmatch pat' name'
        end
  end.

(** [glob.has_magic] *)
Definition has_magic (pat : string) : bool :=
  contains "*" pat || contains "?" pat || contains "[" pat.

(** [glob._ishidden] *)
Definition ishidden (name : string) : bool := startswith name ".".

(** One path component against one pattern component. A component
    without magic is compared literally; otherwise the hidden names are
    dropped (unless the pattern itself is hidden) and [fnmatch] decides.
    Without [recursive=True], [**] gets no special treatment: it is an
    ordinary pattern for [fnmatch], two stars in a row. *)
Definition match_component (pat name : string) : bool :=
  if has_magic pat
  then (ishidden pat || negb (ishidden name)) && fnmatch pat name
  else String.eqb pat name.

Fixpoint match_path (pats path : list string) : bool :=
  match pats, path with
  | [], [] => true
  | p :: pats', n :: path' => match_component p n && match_path pats' path'
  | _, _ => false
  end.

(** [glob] goes down from the working directory one component at a
    time and lists each directory on the way with [os.scandir], which
    yields nothing for what is no directory: an entry is reached when
    every proper prefix of its path is a directory. *)
Definition listable (fs : tree) (path : list string) : bool :=
  forallb (fun k => is_dir fs (take k path)) (seq 0 (length path)).

(** [glob.glob(pattern)]; the pattern is given by its components
    ([src/*.js] is [["src"; "*.js"]]). The entries of the last directory
    are listed whatever they are, regular files and directories alike.
    The order of the result is that of the directory listings; it is a
    function of the set of entries, here the order of [elements], and
    rewriting the text of a file does not change it. *)
Definition glob (pats : list string) (fs : tree) : list (list string) :=
  elements
    (filter (fun p => match_path pats p && listable fs p = true) (dom fs)).

(** [os.path.basename] *)
Definition basename (path : list string) : string := List.last path "".

(** *** [re.sub(r"\b<sym>__sig: '.*'", repl, l)]

    [sym] is taken literally, which is what the regular expression does
    when [sym] is made of word characters (an identifier); [repl] is
    inserted as it is, which is what the template does when it holds no
    backslash. The symbols of the tool are C identifiers and its
    signatures are strings of tags ([wf_sig_info] below); the statements
    about a substitution that takes place are made of such mappings. *)

Definition head_is_word (s : string) : bool :=
  match s with
  | EmptyString => false
  | String c _ => is_word c
  end.

(** [s] minus its prefix [p], when [p] is a prefix of [s]. *)
Fixpoint strip_prefix (p s : string) {struct p} : option string :=
  match p with
  | EmptyString => Some s
  | String a p' =>
      match s with
      | EmptyString => None
      | String b s' => if Ascii.eqb a b then strip_prefix p' s' else None
      end
  end.

(** [.*'] at the start of [s], greedy: what follows the last quote that
    no line feed precedes ([.] matches every character but LF). *)
Fixpoint dot_star_quote (s : string) : option string :=
  match s with
  | EmptyString => None
  | String c s' =>
      if Ascii.eqb c LF then None
      else
        match dot_star_quote s' with
        | Some rest => Some rest
        | None => if Ascii.eqb c "'" then Some s' else None
        end
  end.

(** The whole pattern at the start of [s]; [prev_word] tells whether the
    character before [s] is a word character ([\b] holds when exactly one
    of the two neighbours is one). The result is what follows the match. *)
Definition match_sig_at (sym : string) (prev_word : bool) (s : string)
  : option string :=
  if xorb prev_word (head_is_word s) then
    match strip_prefix (sym ++ "__sig: '") s with
    | Some s' => dot_star_quote s'
    | None => None
    end
  else None.

(** Left to right, every non-overlapping occurrence is replaced. Each
    step consumes at least one character, so [S (length s)] steps are
    enough. *)
Fixpoint re_sub_sig_from (fuel : nat) (sym repl : string)
    (prev_word : bool) (s : string) : string :=
  match fuel with
  | 0 => s
  | S fuel' =>
      match match_sig_at sym prev_word s with
      | Some rest => repl ++ re_sub_sig_from fuel' sym repl false rest
      | None =>
          match s with
          | EmptyString => EmptyString
          | String c s' =>
              String c (re_sub_sig_from fuel' sym repl (is_word c) s')
          end
      end
  end.

Definition re_sub_sig (sym repl s : string) : string :=
  re_sub_sig_from (S (String.length s)) sym repl false s.

End Py.

Import Py.

(** ** The types read from a wasm object file *)

Module webassembly.

(** Modelled from the spec: [webassembly.Type], the value types of the
    binary format, is not part of the sources at hand; the data model
    gives it four members: 32-bit integer, 64-bit integer, 32-bit float
    and 64-bit float. *)
Inductive Type_ : Set := I32 | I64 | F32 | F64.

Definition Type_eqb (a b : Type_) : bool :=
  match a, b with
  | I32, I32 | I64, I64 | F32, F32 | F64, F64 => true
  | _, _ => false
  end.

(** Modelled from the spec: [webassembly.FuncType], an ordered sequence
    of parameter types and the return types. *)
Record FuncType : Set := { params : list Type_; returns : list Type_ }.

(** Modelled from the spec: an entry of the import section, reduced to
    the two attributes the tool reads: the imported name and the index of
    its type in the type section. *)
Record Import : Set := { field : string; type : nat }.

End webassembly.

Import webassembly.

(** ** Module-level constants *)

Definition footer : string :=
  "};" ++ nl ++ nl
  ++ "int main(int argc, char* argv[]) {" ++ nl
  ++ "  return argc + (intptr_t)symbol_list;" ++ nl
  ++ "}" ++ nl.

Definition wasi_symbols : gset string :=
  {[ "proc_exit"; "environ_sizes_get"; "environ_get"; "clock_time_get";
     "clock_res_get"; "fd_write"; "fd_pwrite"; "fd_read"; "fd_pread";
     "fd_close"; "fd_seek"; "fd_sync"; "fd_fdstat_get"; "args_get";
     "args_sizes_get"; "random_get" ]}.

(** ** The symbol filter *)

(** The set of the fifth test of [ignore_symbol]: linker-defined names and
    legacy aliases that native code cannot call. *)
Definition reserved_names : gset string :=
  {[ "__stack_base"; "__memory_base"; "__table_base"; "__global_base";
     "__heap_base"; "__stack_pointer"; "__stack_high"; "__stack_low";
     "_load_secondary_module"; "__asyncify_state"; "__asyncify_data";
     "stackSave"; "stackRestore"; "stackAlloc"; "getTempRet0";
     "setTempRet0" ]}.

(** The tests of [ignore_symbol], in the order of the source. *)
Definition is_js_only (s : string) : bool := startswith s "$".

Definition is_sdl_exception (s : string) : bool :=
  bool_decide (s ∈ ({[ "SDL_GetKeyState" ]} : gset string)).

Definition is_gl_wrapper (s : string) : bool :=
  existsb (startswith s) ["emscripten_gl"; "emscripten_alc"].

Definition is_gl_extension (s : string) : bool :=
  startswith s "gl"
  && existsb (endswith s) ["NV"; "EXT"; "WEBGL"; "ARB"; "ANGLE"].

Definition is_reserved (s : string) : bool :=
  bool_decide (s ∈ reserved_names).

(** The last line of the function:
    [return cxx and s == '__asctime_r' or s.startswith('__cxa_find_matching_catch')];
    [and] binds tighter than [or]. *)
Definition is_cxx_exception (s : string) (cxx : bool) : bool :=
  (cxx && String.eqb s "__asctime_r")
  || startswith s "__cxa_find_matching_catch".

Definition ignore_symbol (s : string) (cxx : bool) : bool :=
  if is_js_only s then true
  else if is_sdl_exception s then true
  else if is_gl_wrapper s then true
  else if is_gl_extension s then true
  else if is_reserved s then true
  else is_cxx_exception s cxx.

(** [[s for s in symbols if not ignore_symbol(s, cxx)]] in
    [extract_sig_info] *)
Definition filter_symbols (symbols : list string) (cxx : bool) : list string :=
  List.filter (fun s => negb (ignore_symbol s cxx)) symbols.

(** ** The stub emitter *)

Definition symbol_entry (s : string) : string :=
  if bool_decide (s ∈ wasi_symbols)
  then "  (void*)&__wasi_" ++ s ++ ","
  else "  (void*)&" ++ s ++ ",".

(** The list [source_lines] that [create_c_file] builds by appending. *)
Definition source_lines (symbol_list : list string) (header : string)
  : list string :=
  let lines := [header] in
  let lines := (lines ++ [(nl ++ "void* symbol_list[] = {")%string])%list in
  let lines :=
    fold_left (fun acc s => (acc ++ [symbol_entry s])%list) symbol_list lines in
  (lines ++ [footer])%list.

(** [utils.write_file(filename, text)] opens the file for writing and
    writes [text]; [None] is the exception of [open]. *)
Definition write_file (filename : list string) (text : string) (fs : tree)
  : option tree :=
  open_w filename text fs.

(** [utils.read_file(filename)] opens the file and reads it whole; [None]
    is the exception of [open]. *)
Definition read_file (filename : list string) (fs : tree) : option string :=
  open_r filename fs.

Definition create_c_file (filename : list string) (symbol_list : list string)
    (header : string) (fs : tree) : option tree :=
  write_file filename (join_lines (source_lines symbol_list header) ++ nl) fs.

(** ** The reconciler *)

(** [None] is the failed [assert t == t64]. *)
Definition valuetype_to_chr (t t64 : Type_) : option ascii :=
  match t, t64 with
  | I32, I64 => Some "p"%char
  | _, _ =>
      if Type_eqb t t64 then
        Some match t with
             | I32 => "i"
             | I64 => "j"
             | F32 => "f"
             | F64 => "d"
             end%char
      else None
  end.

(** The loop [for p, p64 in zip(t.params, t64.params): rtn += ...] *)
Fixpoint append_param_chrs (rtn : string) (ps : list (Type_ * Type_))
  : option string :=
  match ps with
  | [] => Some rtn
  | (p, p64) :: ps' =>
      match valuetype_to_chr p p64 with
      | Some c => append_param_chrs (rtn ++ String c "") ps'
      | None => None
      end
  end.

(** [None] is a failed assertion. *)
Definition functype_to_str (t t64 : FuncType) : option string :=
  if negb (length (returns t) =? length (returns t64))%nat then None
  else if negb (length (params t) =? length (params t64))%nat then None
  else
    let rtn :=
      match returns t with
      | [] => Some "v"
      | r :: _ =>
          if negb (length (returns t) =? 1)%nat then None
          else
            match returns t64 with
            | r64 :: _ =>
                match valuetype_to_chr r r64 with
                | Some c => Some (String c "")
                | None => None
                end
            | [] => None
            end
      end in
    match rtn with
    | Some rtn => append_param_chrs rtn (List.combine (params t) (params t64))
    | None => None
    end.

(** ** Reading the import types *)

(** The body of the loop of [extract_sigs]:
    [sig_info[s] = types[import_map[s].type]]. [None] is a [KeyError] (a
    symbol that is not imported) or an [IndexError]. *)
Definition extract_sig (import_map : Dict.t Import) (types : list FuncType)
    (acc : option (Dict.t FuncType)) (s : string) : option (Dict.t FuncType) :=
  match acc with
  | Some sig_info =>
      match Dict.get import_map s with
      | Some i =>
          match types !! type i with
          | Some t => Some (Dict.set sig_info s t)
          | None => None
          end
      | None => None
      end
  | None => None
  end.

(** [extract_sigs], over the import list and the type table that
    [webassembly.Module] yields for the object file. *)
Definition extract_sigs (symbols : list string) (imports : list Import)
    (types : list FuncType) : option (Dict.t FuncType) :=
  let import_map :=
    fold_left (fun m i => Dict.set m (field i) i) imports Dict.empty in
  fold_left (extract_sig import_map types) symbols (Some Dict.empty).

(** ** The merge into the accumulated mapping

    The last loop of [extract_sig_info] mutates the dictionary it was
    given and prints to the standard output; both are the state of a small
    monad in which a failed assertion aborts and keeps the state reached. *)

Record State : Type := { st_sig_info : Dict.t string; st_stdout : list string }.

Inductive outcome (A : Type) : Type :=
| Done (a : A) (st : State)
| Abort (st : State).
Arguments Done {A} a st.
Arguments Abort {A} st.

Definition M (A : Type) : Type := State -> outcome A.

Definition ret {A} (a : A) : M A := fun st => Done a st.

Definition bind {A B} (m : M A) (k : A -> M B) : M B :=
  fun st =>
    match m st with
    | Done a st' => k a st'
    | Abort st' => Abort st'
    end.

Declare Scope merge_scope.
Delimit Scope merge_scope with merge.
Notation "x <- m ;; k" := (bind m (fun x => k))
  (at level 100, m at next level, right associativity) : merge_scope.
Notation "m ;;; k" := (bind m (fun _ => k))
  (at level 100, right associativity) : merge_scope.
Local Open Scope merge_scope.

Definition raise {A} : M A := fun st => Abort st.

Definition assert_ (b : bool) : M unit := if b then ret tt else raise.

(** A pure computation that may fail. *)
Definition lift {A} (o : option A) : M A :=
  match o with Some a => ret a | None => raise end.

Definition print (line : string) : M unit :=
  fun st => Done tt {| st_sig_info := st_sig_info st;
                       st_stdout := (st_stdout st ++ [line])%list |}.

Definition get_sig_info : M (Dict.t string) := fun st => Done (st_sig_info st) st.

Definition set_sig_info (sym sig : string) : M unit :=
  fun st => Done tt {| st_sig_info := Dict.set (st_sig_info st) sym sig;
                       st_stdout := st_stdout st |}.

(** The body of the loop, for one item [(sym, sig32)] of [sig_info32]. *)
Definition merge_symbol (sig_info64 : Dict.t FuncType) (sym : string)
    (sig32 : FuncType) : M unit :=
  assert_ (Dict.mem sig_info64 sym) ;;;
  sig64 <- lift (Dict.get sig_info64 sym) ;;
  sig_string <- lift (functype_to_str sig32 sig64) ;;
  sig_info <- get_sig_info ;;
  match Dict.get sig_info sym with
  | Some old =>
      if negb (String.eqb old sig_string) then
        print sym ;;;
        print sig_string ;;;
        print old ;;;
        assert_ (String.eqb old sig_string)
      else ret tt
  | None => ret tt
  end ;;;
  set_sig_info sym sig_string.

Fixpoint for_each {A} (body : A -> M unit) (l : list A) : M unit :=
  match l with
  | [] => ret tt
  | a :: l' => body a ;;; for_each body l'
  end.

(** [for sym, sig32 in sig_info32.items(): ...] *)
Definition merge_sig_info (sig_info32 sig_info64 : Dict.t FuncType) : M unit :=
  for_each (fun '(sym, sig32) => merge_symbol sig_info64 sym sig32)
           (Dict.items sig_info32).

(** ** The declaration synchronizer *)

(** The inner function of [update_sigs]; the loop over
    [sig_info.items()] returns at the first symbol that fits. *)
Fixpoint update_line_items (items : list (string * string))
    (stripped l : string) : string :=
  match items with
  | [] => l
  | (sym, sig) :: items' =>
      if startswith stripped (sym ++ "__sig:")
      then re_sub_sig sym (sym ++ "__sig: '" ++ sig ++ "'") l
      else update_line_items items' stripped l
  end.

Definition update_line (sig_info : Dict.t string) (l : string) : string :=
  if negb (contains "__sig" l) then l
  else
    let stripped := strip l in
    update_line_items (Dict.items sig_info) stripped l.

(** The inner function of [remove_sigs], with [to_remove] as in the
    source. *)
Definition to_remove (sig_info : Dict.t string) : list string :=
  List.map (fun sym => sym ++ "__sig:") (Dict.keys sig_info).

Definition strip_line (sig_info : Dict.t string) (l : string) : bool :=
  let l := strip l in
  existsb (fun r => startswith l r) (to_remove sig_info).

(** The new text of one file under [update_sigs] and [remove_sigs]: the
    lines of the old text, rewritten, joined by line feeds and closed by
    one. *)
Definition update_text (sig_info : Dict.t string) (text : string) : string :=
  let lines := splitlines text in
  let lines := List.map (update_line sig_info) lines in
  join_lines lines ++ nl.

Definition remove_text (sig_info : Dict.t string) (text : string) : string :=
  let lines := splitlines text in
  let lines := List.filter (fun l => negb (strip_line sig_info l)) lines in
  join_lines lines ++ nl.

(** [glob.glob('src/*.js') + glob.glob('src/**/*.js')] *)
Definition sig_files (fs : tree) : list (list string) :=
  (glob ["src"; "*.js"] fs ++ glob ["src"; "**"; "*.js"] fs)%list.

(** How a run over the tree ends: it completes, or an exception leaves
    it; either way the tree is as the run left it. *)
Inductive run : Type :=
| Completed (fs : tree)
| Raised (fs : tree).

(** A loop over files that reads and rewrites them. The body raises
    ([None]) before it changes anything, so the exception leaves the loop
    with the tree as the files before left it. *)
Fixpoint for_files (body : list string -> tree -> option tree)
    (files : list (list string)) (fs : tree) : run :=
  match files with
  | [] => Completed fs
  | file :: files' =>
      match body file fs with
      | Some fs' => for_files body files' fs'
      | None => Raised fs
      end
  end.

(** [update_sigs] and [remove_sigs] as functions of the tree; the progress
    message that each prints first is left out. The list of files is
    computed once, before the loop. *)
Definition update_sigs (sig_info : Dict.t string) (fs : tree) : run :=
  let files := sig_files fs in
  for_files
    (fun file fs =>
       match read_file file fs with
       | Some text => write_file file (update_text sig_info text) fs
       | None => None
       end)
    files fs.

Definition remove_sigs (sig_info : Dict.t string) (fs : tree) : run :=
  let files := sig_files fs in
  for_files
    (fun file fs =>
       if negb (String.eqb (basename file) "libsigs.js") then
         match read_file file fs with
         | Some text => write_file file (remove_text sig_info text) fs
         | None => None
         end
       else Some fs)
    files fs.

(** ** The consolidated file *)

(** The order in which [sorted(sig_info.items())] puts two items: tuples
    compare by their first components and, when these are equal, by the
    second ones; strings compare by code points. *)
Definition item_leb (a b : string * string) : bool :=
  match String.compare a.1 b.1 with
  | Lt => true
  | Eq => String.leb a.2 b.2
  | Gt => false
  end.

Definition item_le (a b : string * string) : Prop := item_leb a b = true.

#[global] Instance item_le_dec : RelDecision item_le.
Proof. intros a b. unfold item_le. apply _. Defined.

(** [sorted(sig_info.items())]. The order is total and antisymmetric on
    the items, so every sorting algorithm yields the same list. *)
Definition sorted_items (sig_info : Dict.t string) : list (string * string) :=
  merge_sort item_le (Dict.items sig_info).

(** [f"  {s}__sig: '{sig}',"] *)
Definition sig_line (it : string * string) : string :=
  "  " ++ it.1 ++ "__sig: '" ++ it.2 ++ "',".

(** The list [lines] of [write_sig_library]. *)
Definition sig_library_lines (sig_info : Dict.t string) : list string :=
  let lines :=
    [ "/* Auto-generated by tools/gen_sig_info.py. DO NOT EDIT. */";
      "";
      "sigs = {" ] in
  let lines :=
    fold_left (fun acc it => (acc ++ [sig_line it])%list)
              (sorted_items sig_info) lines in
  (lines ++
   [ "}";
     "";
     "// We have to merge with `allowMissing` since this file contains signatures";
     "// for functions that might not exist in all build configurations.";
     "addToLibrary(sigs, {allowMissing: true});" ])%list.

Definition write_sig_library (filename : list string) (sig_info : Dict.t string)
    (fs : tree) : option tree :=
  write_file filename (join_lines (sig_library_lines sig_info) ++ nl) fs.

(** ** The end of [main]

    [main] from the point where [sig_info] is complete: the consolidated
    file is written, then the sources are updated and stripped as the
    options [--update] and [--remove] ask. [output] is [args.output]. *)
Definition main (output : list string) (update remove : bool)
    (sig_info : Dict.t string) (fs : tree) : run :=
  match write_sig_library output sig_info fs with
  | None => Raised fs
  | Some fs =>
      match (if update then update_sigs sig_info fs else Completed fs) with
      | Completed fs => if remove then remove_sigs sig_info fs else Completed fs
      | Raised fs => Raised fs
      end
  end.

(** ** Vocabulary of the statements and of the proofs *)

(** The tag of one slot, as a relation between the pair of value types
    (wasm32, wasm64) and the character. *)
Definition slot_tag (pp : Type_ * Type_) (c : ascii) : Prop :=
  valuetype_to_chr pp.1 pp.2 = Some c.

(** Every character of [s] passes the test [P]. *)
Fixpoint all_chars (P : ascii -> bool) (s : string) : bool :=
  match s with
  | EmptyString => true
  | String c s' => P c && all_chars P s'
  end.

(** A line, as [splitlines] yields them: no line boundary inside. *)
Definition is_line (s : string) : Prop :=
  all_chars (fun c => negb (is_linebreak c)) s = true.

(** The characters of a signature string. *)
Definition is_tag (c : ascii) : bool :=
  existsb (Ascii.eqb c) ["v"; "i"; "j"; "f"; "d"; "p"]%char.

(** A signature mapping as the tool builds it: the symbols are identifiers
    (they were compiled as C names), the signatures are made of tags. *)
Definition wf_sig_info (sig_info : Dict.t string) : Prop :=
  forallb (fun '(sym, sig) => all_chars is_word sym && all_chars is_tag sig)
          sig_info = true.

(** The number of single quotes of [s]. *)
Fixpoint quotes (s : string) : nat :=
  match s with
  | EmptyString => 0
  | String c s' => (if Ascii.eqb c "'" then 1 else 0) + quotes s'
  end.

(** [re_sub_sig] on a line, without fuel: the first occurrence, which runs
    to the last quote of the line, is the only one. *)
Fixpoint sub_first (sym repl : string) (prev_word : bool) (s : string)
  : string :=
  match match_sig_at sym prev_word s with
  | Some rest => repl ++ rest
  | None =>
      match s with
      | EmptyString => EmptyString
      | String c s' => String c (sub_first sym repl (is_word c) s')
      end
  end.

(** The tree that a run leaves behind, completed or not, and the tree of
    a run that completed. *)
Definition final (r : run) : tree :=
  match r with
  | Completed fs => fs
  | Raised fs => fs
  end.

Definition completed (r : run) : option tree :=
  match r with
  | Completed fs => Some fs
  | Raised _ => None
  end.

(** What a pass makes of a node: the text of a file is rewritten, a
    directory stays. *)
Definition node_map (g : string -> string) (n : node) : node :=
  match n with
  | File text => File (g text)
  | Dir => Dir
  end.

(** The files that a loop gets through: those before the first one that
    is not [ok]. *)
Fixpoint reached (ok : list string -> bool) (files : list (list string))
  : list (list string) :=
  match files with
  | [] => []
  | file :: files' => if ok file then file :: reached ok files' else []
  end.

(** The file that [remove_sigs] passes by. *)
Definition is_sig_library (p : list string) : bool :=
  String.eqb (basename p) "libsigs.js".

(** There is a regular file at [p]. *)
Definition is_file (fs : tree) (p : list string) : bool :=
  match fs !! p with
  | Some (File _) => true
  | _ => false
  end.

(** What is at a path, the text of a file apart. *)
Definition kind (n : node) : bool :=
  match n with
  | File _ => false
  | Dir => true
  end.

(** A file can be written at [p]: the directory that is to hold it is
    there, and [p] itself is no directory. *)
Definition writable (fs : tree) (p : list string) : Prop :=
  p <> [] /\ is_dir fs (removelast p) = true /\ is_dir fs p = false.

Definition head_is_space (s : string) : bool :=
  match s with
  | EmptyString => false
  | String c _ => is_space c
  end.

(** [l] is an annotation line of [sym]: what follows its leading
    whitespace starts with [<sym>__sig:]. *)
Definition annotates (sym l : string) : Prop :=
  exists blanks rest : string,
    all_chars is_space blanks = true
    /\ head_is_space (sym ++ "__sig:" ++ rest) = false
    /\ l = blanks ++ sym ++ "__sig:" ++ rest.

(** Two value types that reconcile: the same type at both widths, or a
    32-bit integer that becomes a 64-bit integer. *)
Definition slot_ok (t t64 : Type_) : Prop := t = t64 \/ (t = I32 /\ t64 = I64).

(** The state in which a run of the merge ends, completed or aborted. *)
Definition outcome_state {A} (o : outcome A) : State :=
  match o with
  | Done _ st => st
  | Abort st => st
  end.

(** What [import_map[s]] is in [extract_sigs]: in a dictionary built from
    a list, the last import named [s] wins. *)
Definition import_of (imports : list Import) (s : string) : option Import :=
  List.find (fun i => String.eqb (field i) s) (List.rev imports).

(** [types[import_map[s].type]] *)
Definition import_type (imports : list Import) (types : list FuncType)
    (s : string) : option FuncType :=
  match import_of imports s with
  | Some i => types !! type i
  | None => None
  end.

(** * Properties *)

(** [simpl] may unfold an append whose first argument starts with a
    constructor. *)
#[local] Arguments String.append !_ _ / : simpl nomatch.

(** ** The reconciler *)

Section Reconciler.

Lemma string_length_app (a b : string) :
  String.length (a ++ b) = String.length a + String.length b.
Proof. induction a as [|c a IH]; simpl; [done | by rewrite IH]. Qed.

Lemma string_app_assoc (a b c : string) : (a ++ b) ++ c = a ++ (b ++ c).
Proof. induction a as [|x a IH]; simpl; [done | by rewrite IH]. Qed.

Lemma string_app_empty_r (a : string) : a ++ "" = a.
Proof. induction a as [|x a IH]; simpl; [done | by rewrite IH]. Qed.

Lemma string_of_list_ascii_length (l : list ascii) :
  String.length (string_of_list_ascii l) = length l.
Proof. induction l as [|c l IH]; simpl; [done | by rewrite IH]. Qed.

Lemma append_param_chrs_spec ps : forall rtn s,
  append_param_chrs rtn ps = Some s ->
  exists tags, s = rtn ++ string_of_list_ascii tags /\ Forall2 slot_tag ps tags.
Proof.
  induction ps as [|[p p64] ps IH]; simpl; intros rtn s H.
  - exists []. simpl. rewrite string_app_empty_r. split; [congruence | constructor].
  - destruct (valuetype_to_chr p p64) as [c|] eqn:Hc; [|discriminate].
    destruct (IH _ _ H) as (tags & -> & Htags).
    exists (c :: tags). split.
    + by rewrite string_app_assoc.
    + by constructor.
Qed.

End Reconciler.

(** C1: the tag of a slot is [p] for a 32-bit integer that widens to a
    64-bit integer, the fixed letter of the type ([i], [j], [f], [d]) when
    the two types are equal, and the assertion fails for every other
    pair. *)
Theorem valuetype_to_chr_cases :
  valuetype_to_chr I32 I64 = Some "p"%char
  /\ valuetype_to_chr I32 I32 = Some "i"%char
  /\ valuetype_to_chr I64 I64 = Some "j"%char
  /\ valuetype_to_chr F32 F32 = Some "f"%char
  /\ valuetype_to_chr F64 F64 = Some "d"%char
  /\ (forall t t64 : Type_,
        t <> t64 -> (t, t64) <> (I32, I64) -> valuetype_to_chr t t64 = None).
Proof.
  repeat split; try reflexivity.
  intros [] [] Hne Hp; try reflexivity; congruence.
Qed.

(** C3: when the arities agree and reconciliation succeeds, the signature
    is the return tag ([v] without a return value) followed by the tags of
    the parameters in order, hence of length 1 + the number of parameters;
    (i32; i32, i32) against (i32; i64, i32) gives "ipi". *)
Theorem functype_to_str_shape :
  (forall (t t64 : FuncType) (s : string),
      length (params t) = length (params t64) ->
      length (returns t) = length (returns t64) ->
      functype_to_str t t64 = Some s ->
      exists (rtn : ascii) (tags : list ascii),
        s = String rtn (string_of_list_ascii tags)
        /\ match returns t, returns t64 with
           | [], _ => rtn = "v"%char
           | r :: _, r64 :: _ => valuetype_to_chr r r64 = Some rtn
           | _ :: _, [] => False
           end
        /\ Forall2 slot_tag (List.combine (params t) (params t64)) tags
        /\ String.length s = 1 + length (params t))
  /\ functype_to_str {| params := [I32; I32]; returns := [I32] |}
                     {| params := [I64; I32]; returns := [I32] |}
     = Some "ipi".
Proof.
  split; [|reflexivity].
  intros t t64 s Hp Hr H. unfold functype_to_str in H.
  rewrite Hp, Hr, !Nat.eqb_refl in H. simpl in H.
  assert (Hlen : forall rtn tags,
             Forall2 slot_tag (List.combine (params t) (params t64)) tags ->
             String.length (String rtn (string_of_list_ascii tags))
             = 1 + length (params t)).
  { intros rtn tags Htags. simpl. rewrite string_of_list_ascii_length.
    apply Forall2_length in Htags. rewrite <- Htags, length_combine. lia. }
  destruct (returns t) as [|r rs] eqn:Hrt.
  - apply append_param_chrs_spec in H as (tags & -> & Htags).
    exists "v"%char, tags. split_and!; auto. by apply Hlen.
  - destruct (negb _); [discriminate|].
    destruct (returns t64) as [|r64 rs64]; [discriminate|].
    destruct (valuetype_to_chr r r64) as [c|] eqn:Hc; [|discriminate].
    apply append_param_chrs_spec in H as (tags & -> & Htags).
    exists c, tags. split_and!; auto. by apply Hlen.
Qed.

(** C4: reconciliation fails when the numbers of parameters differ, when
    the numbers of return values differ, and when there is more than one
    return value; it yields a signature only when both counts agree and
    there is at most one return value. *)
Theorem functype_to_str_arity (t t64 : FuncType) :
  (length (params t) <> length (params t64) -> functype_to_str t t64 = None)
  /\ (length (returns t) <> length (returns t64) -> functype_to_str t t64 = None)
  /\ (1 < length (returns t) -> functype_to_str t t64 = None)
  /\ (forall s, functype_to_str t t64 = Some s ->
        length (params t) = length (params t64)
        /\ length (returns t) = length (returns t64)
        /\ length (returns t) <= 1).
Proof.
  unfold functype_to_str.
  destruct (Nat.eqb_spec (length (returns t)) (length (returns t64))) as [Hr|Hr];
    destruct (Nat.eqb_spec (length (params t)) (length (params t64))) as [Hp|Hp];
    simpl; repeat split; try done; try lia.
  all: destruct (returns t) as [|r [|r' rs]]; simpl in *; try done; try lia.
Qed.

(** ** The symbol filter *)



(** C8: without [cxx], of the four names only [malloc] survives the
    filter; [__stack_base] is in the reserved set, [emscripten_glClear]
    has a wrapper prefix, [glTexImage2DNV] is a [gl] name with an
    extension suffix, and no rule fits [malloc]. *)
Theorem filter_symbols_example :
  filter_symbols
    ["__stack_base"; "malloc"; "emscripten_glClear"; "glTexImage2DNV"] false
  = ["malloc"]
  /\ is_reserved "__stack_base" = true
  /\ is_gl_wrapper "emscripten_glClear" = true
  /\ is_gl_extension "glTexImage2DNV" = true
  /\ (is_js_only "malloc" || is_sdl_exception "malloc" || is_gl_wrapper "malloc"
      || is_gl_extension "malloc" || is_reserved "malloc"
      || is_cxx_exception "malloc" false) = false.
Proof. split_and!; by vm_compute. Qed.

(** ** The stub emitter *)

Section Emitter.

Lemma fold_left_snoc {A B} (f : A -> B) (l : list A) : forall init : list B,
  fold_left (fun acc a => (acc ++ [f a])%list) l init = (init ++ List.map f l)%list.
Proof.
  induction l as [|a l IH]; intros init; simpl.
  - by rewrite app_nil_r.
  - by rewrite IH, <- app_assoc.
Qed.

Lemma dict_keys_set {V} (d : Dict.t V) k v x :
  x ∈ Dict.keys (Dict.set d k v) <-> x = k \/ x ∈ Dict.keys d.
Proof.
  induction d as [|[k' v'] d IH]; simpl.
  - rewrite list_elem_of_singleton, elem_of_nil. tauto.
  - destruct (String.eqb_spec k' k) as [->|Hne]; simpl.
    + rewrite !elem_of_cons. tauto.
    + rewrite !elem_of_cons, IH. tauto.
Qed.

Lemma extract_sigs_keys_from import_map types symbols : forall acc d,
  fold_left (extract_sig import_map types) symbols acc = Some d ->
  exists d0, acc = Some d0
    /\ forall x, x ∈ Dict.keys d <-> x ∈ Dict.keys d0 \/ x ∈ symbols.
Proof.
  induction symbols as [|s symbols IH]; simpl; intros acc d H.
  - exists d. split; [done|]. intros x. rewrite elem_of_nil. tauto.
  - apply IH in H as (d1 & H1 & Hk).
    destruct acc as [d0|]; [|discriminate].
    exists d0. split; [done|]. intros x.
    simpl in H1. destruct (Dict.get import_map s) as [i|]; [|discriminate].
    destruct (types !! type i) as [t|]; [|discriminate].
    injection H1 as <-. rewrite Hk, dict_keys_set, elem_of_cons. tauto.
Qed.

(** A write succeeds exactly where a file can be written, and then the
    file is there. *)
Lemma write_file_writable (filename : list string) (text : string) (fs : tree) :
  writable fs filename ->
  write_file filename text fs = Some (<[filename := File text]> fs)
  /\ read_file filename (<[filename := File text]> fs) = Some text.
Proof.
  intros (Hne & Hdir & Hnd). unfold write_file, open_w, read_file, open_r.
  rewrite Hdir, Hnd, lookup_insert_eq. by destruct filename.
Qed.

Lemma write_file_Some (filename : list string) (text : string) (fs fs' : tree) :
  write_file filename text fs = Some fs' ->
  writable fs filename /\ fs' = <[filename := File text]> fs.
Proof.
  unfold write_file, open_w, writable. destruct filename as [|a l]; [done|].
  destruct (is_dir fs (removelast (a :: l))); [|done].
  destruct (is_dir fs (a :: l)); [done|]. by intros [= <-].
Qed.

End Emitter.

(** C10: the emitted unit lists one entry per symbol, in the order of the
    input, between the header lines and the footer; the entry of a WASI
    symbol takes the address of [__wasi_<name>], every other entry that of
    [<name>]; and the types read back from the object file are keyed by
    the names as given, without the prefix. *)
Theorem create_c_file_entries (symbol_list : list string) (header : string) :
  source_lines symbol_list header
  = (header :: (nl ++ "void* symbol_list[] = {")%string
       :: List.map symbol_entry symbol_list ++ [footer])%list
  /\ (forall filename fs,
        writable fs filename ->
        (create_c_file filename symbol_list header fs ≫= read_file filename)
        = Some (join_lines (source_lines symbol_list header) ++ nl))
  /\ (forall s, s ∈ wasi_symbols -> symbol_entry s = "  (void*)&__wasi_" ++ s ++ ",")
  /\ (forall s, s ∉ wasi_symbols -> symbol_entry s = "  (void*)&" ++ s ++ ",")
  /\ (forall imports types sig_info,
        extract_sigs symbol_list imports types = Some sig_info ->
        forall s, s ∈ Dict.keys sig_info <-> s ∈ symbol_list).
Proof.
  split_and!.
  - unfold source_lines. by rewrite fold_left_snoc.
  - intros filename fs Hw. unfold create_c_file.
    destruct (write_file_writable filename
                (join_lines (source_lines symbol_list header) ++ nl) fs Hw)
      as [-> _].
    simpl. unfold read_file, open_r. by rewrite lookup_insert_eq.
  - intros s Hs. unfold symbol_entry. by rewrite bool_decide_eq_true_2.
  - intros s Hs. unfold symbol_entry. by rewrite bool_decide_eq_false_2.
  - intros imports types sig_info H s. unfold extract_sigs in H.
    apply extract_sigs_keys_from in H as (d0 & [= <-] & Hk).
    rewrite Hk. simpl. rewrite elem_of_nil. tauto.
Qed.

(** ** The merge *)

Section Merge.

Lemma dict_set_same {V} (d : Dict.t V) k v :
  Dict.get d k = Some v -> Dict.set d k v = d.
Proof.
  induction d as [|[k' v'] d IH]; simpl; [done|].
  destruct (String.eqb_spec k' k) as [->|Hne].
  - by intros [= ->].
  - intros H. by rewrite IH.
Qed.


End Merge.



(** Three configurations in a row: the first two infer [vi] for [bar]
    and merge; the third infers [vj] and aborts after printing the
    symbol, the new signature and the recorded one. *)
Example merge_sig_info_three_presets :
  let vi := [("bar", {| params := [I32]; returns := [] |})] in
  let vj := [("bar", {| params := [I64]; returns := [] |})] in
  let st0 := {| st_sig_info := Dict.empty; st_stdout := [] |} in
  let st1 := {| st_sig_info := [("bar", "vi")]; st_stdout := [] |} in
  merge_sig_info vi vi st0 = Done tt st1
  /\ merge_sig_info vi vi st1 = Done tt st1
  /\ merge_sig_info vj vj st1
     = Abort {| st_sig_info := [("bar", "vi")];
                st_stdout := ["bar"; "vj"; "vi"] |}.
Proof. split_and!; reflexivity. Qed.

(** ** The files that Update and Remove visit *)

Section Files.

Implicit Types (fs : tree) (p : list string).

Lemma match_path_length pats p :
  match_path pats p = true -> length p = length pats.
Proof.
  revert p. induction pats as [|pat pats IH]; intros [|n p]; simpl; try done.
  intros [_ H]%andb_prop. by rewrite (IH p).
Qed.

Lemma list_map_fmap {A B} (f : A -> B) (l : list A) : List.map f l = f <$> l.
Proof. induction l as [|a l IH]; simpl; [done | by rewrite IH]. Qed.

Lemma elem_of_glob pats fs p :
  p ∈ glob pats fs <->
  is_Some (fs !! p) /\ match_path pats p = true /\ listable fs p = true.
Proof.
  unfold glob.
  rewrite elem_of_elements, elem_of_filter, elem_of_dom, andb_true_iff. tauto.
Qed.

Lemma NoDup_list_filter {A} (f : A -> bool) (l : list A) :
  NoDup l -> NoDup (List.filter f l).
Proof.
  induction 1 as [|a l Ha _ IH]; simpl; [constructor|].
  destruct (f a); [|done]. constructor; [|done].
  rewrite list_elem_of_In, filter_In, <- list_elem_of_In. tauto.
Qed.

Lemma NoDup_glob pats fs : NoDup (glob pats fs).
Proof. apply NoDup_elements. Qed.

Lemma elem_of_sig_files fs p :
  p ∈ sig_files fs <->
  is_Some (fs !! p)
  /\ (match_path ["src"; "*.js"] p || match_path ["src"; "**"; "*.js"] p) = true
  /\ listable fs p = true.
Proof.
  unfold sig_files. rewrite elem_of_app, !elem_of_glob, orb_true_iff. tauto.
Qed.

Lemma NoDup_sig_files fs : NoDup (sig_files fs).
Proof.
  unfold sig_files. apply NoDup_app. split_and!; [apply NoDup_glob| |apply NoDup_glob].
  intros p (_ & H1%match_path_length & _)%elem_of_glob
           (_ & H2%match_path_length & _)%elem_of_glob.
  simpl in *. lia.
Qed.

(** The listing looks at what is a file and what a directory, not at the
    texts. *)
Lemma is_dir_kind fs fs' :
  (forall p, kind <$> fs' !! p = kind <$> fs !! p) ->
  forall p, is_dir fs' p = is_dir fs p.
Proof.
  intros H [|a p]; [done|]. unfold is_dir. specialize (H (a :: p)).
  by destruct (fs' !! (a :: p)) as [[]|], (fs !! (a :: p)) as [[]|].
Qed.

Lemma is_file_kind fs fs' :
  (forall p, kind <$> fs' !! p = kind <$> fs !! p) ->
  forall p, is_file fs' p = is_file fs p.
Proof.
  intros H p. unfold is_file. specialize (H p).
  by destruct (fs' !! p) as [[]|], (fs !! p) as [[]|].
Qed.

Lemma forallb_pointwise {A} (f h : A -> bool) (l : list A) :
  (forall x, f x = h x) -> forallb f l = forallb h l.
Proof. intros H. induction l as [|a l IH]; simpl; [done|]. by rewrite H, IH. Qed.

Lemma glob_kind pats fs fs' :
  (forall p, kind <$> fs' !! p = kind <$> fs !! p) ->
  glob pats fs' = glob pats fs.
Proof.
  intros H. unfold glob. f_equal. apply set_eq. intros p.
  rewrite !elem_of_filter, !elem_of_dom.
  assert (listable fs' p = listable fs p) as ->.
  { unfold listable. apply forallb_pointwise. intros k. by apply is_dir_kind. }
  by rewrite <- (fmap_is_Some kind (fs' !! p)), H, fmap_is_Some.
Qed.

Lemma sig_files_kind fs fs' :
  (forall p, kind <$> fs' !! p = kind <$> fs !! p) ->
  sig_files fs' = sig_files fs.
Proof. intros H. unfold sig_files. by rewrite !(glob_kind _ fs fs'). Qed.

(** A listed path lies in a directory. *)
Lemma sig_files_parent fs p :
  p ∈ sig_files fs -> p <> [] /\ is_dir fs (removelast p) = true.
Proof.
  intros (_ & Hm & Hl)%elem_of_sig_files.
  apply orb_prop in Hm as [Hm|Hm]; apply match_path_length in Hm.
  - destruct p as [|a [|b [|??]]]; try done. split; [done|].
    unfold listable in Hl. simpl in *. by destruct (fs !! [a]) as [[]|].
  - destruct p as [|a [|b [|c [|??]]]]; try done. split; [done|].
    unfold listable in Hl. simpl in *.
    destruct (fs !! [a]) as [[]|]; try done.
    by destruct (fs !! [a; b]) as [[]|].
Qed.

End Files.

(** C6: the claim fails on the code by a slip. [glob.glob] is called
    without [recursive=True], so [src/**/*.js] reaches exactly one
    directory below [src]: whatever the tree, a visited file lies in
    [src] or in a directory right below it. In the tree with
    [src/lib/libcore.js] and [src/lib/webgl/ext.js], which hold the same
    annotation of a mapped symbol, only the first is listed; Update
    rewrites it and Remove strips it, and both leave the nested file as it
    was. *)
Theorem sig_files_one_level_only :
  (forall (fs : tree) (p : list string),
      p ∈ sig_files fs -> length p = 2 \/ length p = 3)
  /\ let sig_info := [("foo", "iij")] in
     let text := "foo__sig: 'ii'," ++ nl in
     let shallow := ["src"; "lib"; "libcore.js"] in
     let nested := ["src"; "lib"; "webgl"; "ext.js"] in
     let fs : tree :=
       {[ ["src"] := Dir; ["src"; "lib"] := Dir; ["src"; "lib"; "webgl"] := Dir;
          shallow := File text; nested := File text ]} in
     sig_files fs = [shallow]
     /\ (completed (update_sigs sig_info fs) ≫= lookup shallow)
        = Some (File ("foo__sig: 'iij'," ++ nl))
     /\ (completed (update_sigs sig_info fs) ≫= lookup nested) = Some (File text)
     /\ (completed (remove_sigs sig_info fs) ≫= lookup shallow) = Some (File nl)
     /\ (completed (remove_sigs sig_info fs) ≫= lookup nested) = Some (File text).
Proof.
  split.
  - intros fs p (_ & [H|H]%orb_prop & _)%elem_of_sig_files;
      apply match_path_length in H; simpl in H; auto.
  - split_and!; by vm_compute.
Qed.

(** ** The per-line transform of Update *)

Section UpdateLine.

Lemma update_line_items_unmapped items stripped l :
  Forall (fun it => startswith stripped (it.1 ++ "__sig:") = false) items ->
  update_line_items items stripped l = l.
Proof.
  induction 1 as [|[sym sig] items H _ IH]; simpl in *; [done|].
  by rewrite H.
Qed.

(** A line that starts with the annotation of no mapped symbol is
    returned as it is. *)
Lemma update_line_unmapped sig_info l :
  Forall (fun it => startswith (strip l) (it.1 ++ "__sig:") = false) sig_info ->
  update_line sig_info l = l.
Proof.
  intros H. unfold update_line. case_match; [done|].
  by apply update_line_items_unmapped.
Qed.

End UpdateLine.

(** ** Lines and texts *)

Section Lines.

Lemma all_chars_app P (a b : string) :
  all_chars P (a ++ b) = all_chars P a && all_chars P b.
Proof. induction a as [|c a IH]; simpl; [done | by rewrite IH, andb_assoc]. Qed.

Lemma all_chars_impl (P Q : ascii -> bool) (s : string) :
  (forall c, P c = true -> Q c = true) ->
  all_chars P s = true -> all_chars Q s = true.
Proof.
  intros HPQ. induction s as [|c s IH]; simpl; [done|].
  intros [Hc Hs]%andb_prop. by rewrite (HPQ c Hc), IH.
Qed.

Lemma splitlines_from_lines s : forall b, Forall is_line (splitlines_from b s).
Proof.
  induction s as [|c s IH]; intros b; simpl; [constructor|].
  destruct (b && Ascii.eqb c LF); [apply IH|].
  destruct (is_linebreak c) eqn:Hc.
  - constructor; [done | apply IH].
  - specialize (IH false). destruct (splitlines_from false s) as [|x xs].
    + repeat constructor. unfold is_line. simpl. by rewrite Hc.
    + inversion IH as [|? ? Hx Hxs]; subst. constructor; [|done].
      unfold is_line in *. simpl. by rewrite Hc.
Qed.

Lemma splitlines_line_nl x rest :
  is_line x ->
  splitlines_from false (x ++ String LF rest) = x :: splitlines_from false rest.
Proof.
  unfold is_line. induction x as [|c x IH]; simpl.
  - done.
  - intros [Hc Hx]%andb_prop. apply negb_true_iff in Hc.
    by rewrite Hc, (IH Hx).
Qed.

Lemma splitlines_join ls :
  Forall is_line ls -> ls <> [] -> splitlines (join_lines ls ++ nl) = ls.
Proof.
  unfold splitlines, join_lines.
  induction 1 as [|x ls Hx Hls IH]; [done|]. intros _.
  destruct ls as [|y ls].
  - simpl. unfold nl. by rewrite splitlines_line_nl.
  - change (String.concat nl (x :: y :: ls))
      with (x ++ nl ++ String.concat nl (y :: ls)).
    rewrite !string_app_assoc. unfold nl at 1. simpl.
    rewrite splitlines_line_nl by done. f_equal. by apply IH.
Qed.


End Lines.

(** ** Rewriting the files of the tree *)

Section Rewrite.

Implicit Types (fs : tree) (p file : list string).

Lemma kind_insert_file fs file text text' p :
  fs !! file = Some (File text) ->
  kind <$> <[file := File text']> fs !! p = kind <$> fs !! p.
Proof.
  intros H. destruct (decide (file = p)) as [<-|Hne].
  - by rewrite lookup_insert_eq, H.
  - by rewrite lookup_insert_ne.
Qed.

Lemma reached_subseteq ok files p : p ∈ reached ok files -> p ∈ files.
Proof.
  induction files as [|f files IH]; simpl; [done|].
  destruct (ok f); [|by intros ?%elem_of_nil].
  intros [->|H]%elem_of_cons; [left | right; auto].
Qed.

(** A loop body that passes by the files that [skip] picks and rewrites
    the text of every other file with [g]. *)
Variable skip : list string -> bool.
Variable g : string -> string.
Variable body : list string -> tree -> option tree.
Hypothesis body_eq : forall file fs,
  body file fs
  = if skip file then Some fs
    else match read_file file fs with
         | Some text => write_file file (g text) fs
         | None => None
         end.

(** The loop completes when it can read every file that it does not pass
    by; it raises at the first one that it cannot read, a directory, and
    has by then rewritten the files before. *)
Lemma for_files_run ok files : forall fs,
  NoDup files ->
  (forall p, ok p = skip p || is_file fs p) ->
  (forall p, p ∈ files -> p <> [] /\ is_dir fs (removelast p) = true) ->
  exists fs',
    for_files body files fs
    = (if forallb ok files then Completed fs' else Raised fs')
    /\ forall p, fs' !! p
                 = if decide (p ∈ reached ok files /\ skip p = false)
                   then node_map g <$> fs !! p else fs !! p.
Proof.
  induction files as [|f files IH]; intros fs Hnd Hok Hdir.
  - exists fs. split; [done|]. intros p.
    rewrite decide_False; [done|]. by intros [?%elem_of_nil _].
  - apply NoDup_cons in Hnd as [Hf Hnd]. simpl. rewrite body_eq, Hok.
    destruct (skip f) eqn:Hskip; simpl.
    + destruct (IH fs) as (fs' & Hrun & Hl); [done..| |].
      { intros p Hp. apply Hdir. by right. }
      exists fs'. split; [done|]. intros p. rewrite Hl. apply decide_ext.
      rewrite elem_of_cons. split; [tauto|]. intros [[->|?] ?]; [congruence|done].
    + unfold is_file, read_file, open_r.
      destruct (fs !! f) as [[text|]|] eqn:Hf0; simpl.
      * destruct (Hdir f) as [Hne Hpar]; [left|].
        destruct (write_file_writable f (g text) fs) as [-> _].
        { split_and!; [done..|]. unfold is_dir. rewrite Hf0. by destruct f. }
        pose proof (kind_insert_file fs f text (g text)) as Hk.
        destruct (IH (<[f := File (g text)]> fs)) as (fs' & Hrun & Hl); [done| |  |].
        { intros p. rewrite Hok. f_equal. symmetry. apply is_file_kind.
          intros q. by apply Hk. }
        { intros p Hp. destruct (Hdir p) as [? Hp']; [by right|]. split; [done|].
          rewrite <- Hp'. apply is_dir_kind. intros q. by apply Hk. }
        exists fs'. split; [done|]. intros p. rewrite Hl.
        destruct (decide (p = f)) as [->|Hne'].
        -- rewrite decide_False by (by intros [?%reached_subseteq _]).
           rewrite decide_True by (split; [left|done]).
           by rewrite lookup_insert_eq, Hf0.
        -- rewrite lookup_insert_ne by done. apply decide_ext.
           rewrite elem_of_cons. tauto.
      * by exists fs.
      * by exists fs.
Qed.

(** One pass over the files of [sig_files]. *)
Lemma pass_run fs :
  exists fs',
    for_files body (sig_files fs) fs
    = (if forallb (fun p => skip p || is_file fs p) (sig_files fs)
       then Completed fs' else Raised fs')
    /\ forall p,
         fs' !! p
         = if decide (p ∈ reached (fun p => skip p || is_file fs p) (sig_files fs)
                      /\ skip p = false)
           then node_map g <$> fs !! p else fs !! p.
Proof.
  apply for_files_run; [apply NoDup_sig_files | done | apply sig_files_parent].
Qed.


Hypothesis g_idem : forall text, g (g text) = g text.


End Rewrite.

(** ** The substitution on a line *)

Section Characters.

Lemma is_word_not_space c : is_word c = true -> is_space c = false.
Proof. destruct c as [[] [] [] [] [] [] [] []]; by vm_compute. Qed.

Lemma is_word_not_quote c : is_word c = true -> Ascii.eqb c "'" = false.
Proof. destruct c as [[] [] [] [] [] [] [] []]; by vm_compute. Qed.

Lemma is_word_not_colon c : is_word c = true -> Ascii.eqb c ":" = false.
Proof. destruct c as [[] [] [] [] [] [] [] []]; by vm_compute. Qed.

Lemma is_tag_not_linebreak c : is_tag c = true -> negb (is_linebreak c) = true.
Proof. destruct c as [[] [] [] [] [] [] [] []]; by vm_compute. Qed.

Lemma not_linebreak_not_LF c :
  negb (is_linebreak c) = true -> Ascii.eqb c LF = false.
Proof. destruct c as [[] [] [] [] [] [] [] []]; by vm_compute. Qed.

End Characters.

Section Strings.

Implicit Types (s p r x y : string).

Lemma strip_prefix_app p s : strip_prefix p (p ++ s) = Some s.
Proof. induction p as [|a p IH]; simpl; [done | by rewrite Ascii.eqb_refl]. Qed.

Lemma strip_prefix_Some p : forall s r, strip_prefix p s = Some r -> s = p ++ r.
Proof.
  induction p as [|a p IH]; simpl; intros s r H; [congruence|].
  destruct s as [|b s]; [done|].
  destruct (Ascii.eqb_spec a b) as [->|]; [|done]. by rewrite (IH _ _ H).
Qed.

Lemma startswith_strip_prefix p : forall s,
  startswith s p = match strip_prefix p s with Some _ => true | None => false end.
Proof.
  induction p as [|a p IH]; simpl; intros s; [done|].
  destruct s as [|b s]; [done|]. destruct (Ascii.eqb a b); simpl; [apply IH | done].
Qed.

Lemma startswith_app p s : startswith (p ++ s) p = true.
Proof. by rewrite startswith_strip_prefix, strip_prefix_app. Qed.

(** A prefix no longer than [x] is decided by [x] alone. *)
Lemma startswith_app_short p : forall x y,
  String.length p <= String.length x ->
  startswith (x ++ y) p = startswith x p.
Proof.
  induction p as [|a p IH]; simpl; intros x y H; [done|].
  destruct x as [|b x]; simpl in *; [lia|]. rewrite IH by lia. done.
Qed.

Lemma string_app_inv_tail x : forall y r, x ++ r = y ++ r -> x = y.
Proof.
  induction x as [|a x IH]; intros [|b y] r H; simpl in *.
  - done.
  - apply (f_equal String.length) in H. simpl in H.
    rewrite string_length_app in H. lia.
  - apply (f_equal String.length) in H. simpl in H.
    rewrite string_length_app in H. lia.
  - injection H as -> H. by rewrite (IH _ _ H).
Qed.

Lemma quotes_app x y : quotes (x ++ y) = quotes x + quotes y.
Proof. induction x as [|a x IH]; simpl; [done | rewrite IH; lia]. Qed.

Lemma quotes_word x : all_chars is_word x = true -> quotes x = 0.
Proof.
  induction x as [|a x IH]; simpl; [done|]. intros [Ha Hx]%andb_prop.
  by rewrite (is_word_not_quote _ Ha), IH.
Qed.

(** *** The greedy [.*'] *)

Lemma dot_star_quote_quotes s : forall rest,
  dot_star_quote s = Some rest -> 1 <= quotes s.
Proof.
  induction s as [|c s IH]; simpl; intros rest H; [done|].
  destruct (Ascii.eqb c LF); [done|].
  destruct (dot_star_quote s) as [r|].
  - specialize (IH _ eq_refl). lia.
  - destruct (Ascii.eqb c "'"); [lia | done].
Qed.

Lemma dot_star_quote_None s :
  is_line s -> dot_star_quote s = None -> quotes s = 0.
Proof.
  unfold is_line. induction s as [|c s IH]; simpl; [done|].
  intros [Hc Hs]%andb_prop. rewrite (not_linebreak_not_LF _ Hc).
  destruct (dot_star_quote s) as [r|]; [done|].
  destruct (Ascii.eqb c "'"); [done|]. intros _. by rewrite IH.
Qed.

Lemma dot_star_quote_rest s : forall rest,
  dot_star_quote s = Some rest -> dot_star_quote rest = None.
Proof.
  induction s as [|c s IH]; simpl; intros rest H; [done|].
  destruct (Ascii.eqb c LF); [done|].
  destruct (dot_star_quote s) as [r|] eqn:Hs.
  - injection H as <-. by apply IH.
  - destruct (Ascii.eqb c "'"); [|done]. by injection H as <-.
Qed.

Lemma dot_star_quote_all_chars P s : forall rest,
  dot_star_quote s = Some rest ->
  all_chars P s = true -> all_chars P rest = true.
Proof.
  induction s as [|c s IH]; simpl; intros rest H; [done|].
  intros [Hc Hs]%andb_prop.
  destruct (Ascii.eqb c LF); [done|].
  destruct (dot_star_quote s) as [r|] eqn:Hr.
  - injection H as <-. by apply IH.
  - destruct (Ascii.eqb c "'"); [|done]. by injection H as <-.
Qed.

Lemma dot_star_quote_app sig rest :
  is_line sig -> dot_star_quote rest = None ->
  dot_star_quote (sig ++ String "'" rest) = Some rest.
Proof.
  unfold is_line. intros Hsig Hrest. induction sig as [|c sig IH]; simpl.
  - by rewrite Hrest.
  - simpl in Hsig. apply andb_prop in Hsig as [Hc Hsig].
    by rewrite (not_linebreak_not_LF _ Hc), IH.
Qed.

(** *** [strip] *)

Lemma startswith_nil_r s : startswith s "" = true.
Proof. by destruct s. Qed.

Lemma startswith_nil_l p c : startswith "" (p ++ String c "") = false.
Proof. by destruct p. Qed.

(** Trailing blanks do not matter to a prefix that ends in a character
    that is not one. *)
Lemma startswith_rstrip c y : forall p,
  is_space c = false ->
  startswith (rstrip y) (p ++ String c "") = startswith y (p ++ String c "").
Proof.
  intros p Hc. revert p. induction y as [|a y IH]; intros p; [done|].
  simpl rstrip. destruct p as [|b p]; simpl.
  - destruct (rstrip y) as [|a' r]; [destruct (is_space a) eqn:Ha|];
      simpl; rewrite ?andb_true_r; try done.
    destruct (Ascii.eqb_spec c a) as [->|]; congruence.
  - rewrite <- IH. destruct (rstrip y) as [|a' r]; [|done].
    rewrite startswith_nil_l, andb_false_r.
    destruct (is_space a); simpl; by rewrite ?startswith_nil_l, ?andb_false_r.
Qed.

Lemma startswith_strip c x p :
  is_space c = false ->
  startswith (strip x) (p ++ String c "") = startswith (lstrip x) (p ++ String c "").
Proof. intros Hc. unfold strip. by apply startswith_rstrip. Qed.

(** Two words that are followed by the same separator at the start of
    the same string are the same word. *)
Lemma startswith_word_inj d w : forall w' y,
  is_word d = false ->
  all_chars is_word w = true -> all_chars is_word w' = true ->
  startswith y (w ++ String d "") = true ->
  startswith y (w' ++ String d "") = true ->
  w = w'.
Proof.
  induction w as [|a w IH]; intros [|b w'] [|c y] Hd; simpl; try done.
  - intros _ [Hb _]%andb_prop [<-%Ascii.eqb_eq _]%andb_prop
      [<-%Ascii.eqb_eq _]%andb_prop. congruence.
  - intros [Ha _]%andb_prop _ [<-%Ascii.eqb_eq _]%andb_prop
      [E%Ascii.eqb_eq _]%andb_prop. congruence.
  - intros [_ Hw]%andb_prop [_ Hw']%andb_prop
      [<-%Ascii.eqb_eq H]%andb_prop [<-%Ascii.eqb_eq H']%andb_prop.
    by rewrite (IH w' y).
Qed.

End Strings.

Section Substitution.

Variables sym sig : string.
Hypothesis Hsym : all_chars is_word sym = true.
Hypothesis Hsig : is_line sig.

Local Abbreviation lit := (sym ++ "__sig: '").
Local Abbreviation repl := (sym ++ "__sig: '" ++ sig ++ "'").

Implicit Types (s r rest : string) (prev : bool).

Lemma repl_lit : repl = lit ++ sig ++ String "'" "".
Proof. by rewrite string_app_assoc. Qed.

Lemma length_key_lit : String.length (sym ++ "__sig:") <= String.length lit.
Proof. rewrite !string_length_app. simpl. lia. Qed.

Lemma head_is_word_lit r : head_is_word (lit ++ r) = true.
Proof.
  destruct sym as [|c sym']; simpl in *; [done|].
  by apply andb_prop in Hsym as [-> _].
Qed.

Lemma lstrip_lit r : lstrip (lit ++ r) = lit ++ r.
Proof.
  destruct sym as [|c sym']; simpl in *; [done|].
  apply andb_prop in Hsym as [Hc _]. by rewrite (is_word_not_space _ Hc).
Qed.

Lemma quotes_lit : quotes lit = 1.
Proof. by rewrite quotes_app, quotes_word. Qed.

Lemma match_sig_at_inv prev s rest :
  match_sig_at sym prev s = Some rest ->
  xorb prev (head_is_word s) = true
  /\ exists r, s = lit ++ r /\ dot_star_quote r = Some rest.
Proof.
  unfold match_sig_at. destruct (xorb prev (head_is_word s)); [|done].
  destruct (strip_prefix lit s) as [r|] eqn:Hr; [|done].
  apply strip_prefix_Some in Hr. eauto.
Qed.

Lemma match_sig_at_quotes prev s rest :
  match_sig_at sym prev s = Some rest -> 2 <= quotes s.
Proof.
  intros (_ & r & E & Hr%dot_star_quote_quotes)%match_sig_at_inv.
  rewrite E, quotes_app, quotes_lit. lia.
Qed.

Lemma sub_first_eq R prev s :
  sub_first sym R prev s
  = match match_sig_at sym prev s with
    | Some rest => R ++ rest
    | None =>
        match s with
        | EmptyString => EmptyString
        | String c s' => String c (sub_first sym R (is_word c) s')
        end
    end.
Proof. by destruct s. Qed.

Lemma sub_first_nil R prev : sub_first sym R prev "" = "".
Proof.
  simpl. unfold match_sig_at. destruct (xorb _ _); [|done].
  by destruct sym.
Qed.

Lemma quotes_tail c s : quotes s <= quotes (String c s).
Proof. simpl. lia. Qed.


Lemma re_sub_sig_from_few_quotes R fuel : forall s prev,
  quotes s <= 1 -> re_sub_sig_from fuel sym R prev s = s.
Proof.
  induction fuel as [|fuel IH]; intros s prev H; simpl; [done|].
  destruct (match_sig_at sym prev s) eqn:Hm;
    [apply match_sig_at_quotes in Hm; lia|].
  destruct s as [|c s]; [done|]. f_equal. apply IH.
  pose proof (quotes_tail c s). lia.
Qed.

(** On a line the scan with fuel is [sub_first]: what follows the first
    occurrence holds no quote. *)
Lemma re_sub_sig_from_line R fuel : forall s prev,
  String.length s < fuel -> is_line s ->
  re_sub_sig_from fuel sym R prev s = sub_first sym R prev s.
Proof.
  induction fuel as [|fuel IH]; intros s prev Hlen Hs; [lia|].
  rewrite sub_first_eq. simpl.
  destruct (match_sig_at sym prev s) as [rest|] eqn:Hm.
  - apply match_sig_at_inv in Hm as (_ & r & E & Hr).
    unfold is_line in Hs. rewrite E, (all_chars_app _ lit) in Hs.
    apply andb_prop in Hs as [_ Hs].
    rewrite re_sub_sig_from_few_quotes; [done|].
    rewrite dot_star_quote_None; [lia| |by eapply dot_star_quote_rest].
    by eapply dot_star_quote_all_chars.
  - destruct s as [|c s]; [done|]. f_equal. apply IH; [simpl in Hlen; lia|].
    unfold is_line in *. simpl in Hs. by apply andb_prop in Hs as [_ ?].
Qed.

Lemma re_sub_sig_line R s :
  is_line s -> re_sub_sig sym R s = sub_first sym R false s.
Proof. intros Hs. unfold re_sub_sig. apply re_sub_sig_from_line; [lia | done]. Qed.

(** The substitution keeps the first characters of the string, as many
    as the literal part of the pattern has. *)
Lemma sub_first_prefix s : forall prev p,
  String.length p <= String.length lit ->
  startswith (sub_first sym repl prev s) p = startswith s p.
Proof.
  induction s as [|c s IH]; intros prev p Hp; [by rewrite sub_first_nil|].
  rewrite sub_first_eq.
  destruct (match_sig_at sym prev _) as [rest|] eqn:Hm.
  - apply match_sig_at_inv in Hm as (_ & r & E & _).
    rewrite E, repl_lit, (string_app_assoc lit). by rewrite !(startswith_app_short p lit) by done.
  - destruct p as [|b p]; [done|]. simpl. f_equal. apply IH. simpl in Hp. lia.
Qed.

Lemma sub_first_lstrip_prefix s : forall prev p,
  String.length p <= String.length lit ->
  startswith (lstrip (sub_first sym repl prev s)) p = startswith (lstrip s) p.
Proof.
  induction s as [|c s IH]; intros prev p Hp; [by rewrite sub_first_nil|].
  rewrite sub_first_eq.
  destruct (match_sig_at sym prev _) as [rest|] eqn:Hm.
  - apply match_sig_at_inv in Hm as (_ & r & E & _).
    rewrite E, repl_lit, (string_app_assoc lit), !lstrip_lit.
    by rewrite !(startswith_app_short p lit) by done.
  - simpl. destruct (is_space c); [by apply IH|].
    destruct p as [|b p]; [done|]. simpl. f_equal. apply sub_first_prefix.
    simpl in Hp. lia.
Qed.

Lemma sub_first_all_chars P s : forall prev,
  all_chars P repl = true -> all_chars P s = true ->
  all_chars P (sub_first sym repl prev s) = true.
Proof.
  intros prev HR. revert prev.
  assert (Hmatch : forall prev s rest,
             match_sig_at sym prev s = Some rest -> all_chars P s = true ->
             all_chars P (repl ++ rest) = true).
  { intros prev s' rest (_ & r & E & Hr)%match_sig_at_inv Hs'.
    rewrite E, (all_chars_app P lit) in Hs'. apply andb_prop in Hs' as [_ H].
    rewrite (all_chars_app P repl), HR. simpl.
    by eapply dot_star_quote_all_chars. }
  induction s as [|c s IH]; intros prev Hs; [by rewrite sub_first_nil|].
  rewrite sub_first_eq.
  destruct (match_sig_at sym prev _) as [rest|] eqn:Hm; eauto.
  simpl in *. apply andb_prop in Hs as [-> Hs]. by apply IH.
Qed.


End Substitution.

(** ** Idempotence of the per-line transforms *)

Section UpdateIdem.

Implicit Types (sig_info items : Dict.t string) (l s sym sig : string).

Lemma key_colon s : s ++ "__sig:" = (s ++ "__sig") ++ String ":" "".
Proof. by rewrite string_app_assoc. Qed.

(** Which annotation a line starts with is decided by the line without
    its leading blanks. *)
Lemma startswith_strip_key l s :
  startswith (strip l) (s ++ "__sig:") = startswith (lstrip l) (s ++ "__sig:").
Proof. rewrite key_colon. by apply startswith_strip. Qed.

Lemma startswith_key_inj y s s' :
  all_chars is_word s = true -> all_chars is_word s' = true ->
  startswith y (s ++ "__sig:") = true -> startswith y (s' ++ "__sig:") = true ->
  s = s'.
Proof.
  rewrite !key_colon. intros Hs Hs' H H'.
  apply (string_app_inv_tail _ _ "__sig").
  apply (startswith_word_inj ":" _ _ y); try done;
    by rewrite all_chars_app, ?Hs, ?Hs'.
Qed.

(** The substitution for the symbol of the line does not change which
    annotation the line starts with. *)
Lemma startswith_key_sub_first sym sig s l prev :
  all_chars is_word sym = true -> all_chars is_word s = true ->
  startswith (strip l) (sym ++ "__sig:") = true ->
  startswith (strip (sub_first sym (sym ++ "__sig: '" ++ sig ++ "'") prev l))
             (s ++ "__sig:")
  = startswith (strip l) (s ++ "__sig:").
Proof.
  intros Hsym Hs. rewrite !startswith_strip_key. intros Hl.
  set (out := sub_first _ _ _ _).
  assert (Hout : startswith (lstrip out) (sym ++ "__sig:") = true).
  { unfold out. rewrite sub_first_lstrip_prefix; [done..|].
    apply length_key_lit. }
  destruct (startswith (lstrip l) (s ++ "__sig:")) eqn:E.
  - by rewrite <- (startswith_key_inj _ _ _ Hsym Hs Hl E).
  - destruct (startswith (lstrip out) (s ++ "__sig:")) eqn:E'; [|done].
    rewrite <- (startswith_key_inj _ _ _ Hsym Hs Hout E') in E. congruence.
Qed.

Lemma wf_sig_info_cons sym sig items :
  wf_sig_info ((sym, sig) :: items) ->
  all_chars is_word sym = true /\ all_chars is_tag sig = true /\ wf_sig_info items.
Proof.
  unfold wf_sig_info. simpl. intros [[??]%andb_prop ?]%andb_prop. auto.
Qed.

Lemma is_line_tags sig : all_chars is_tag sig = true -> is_line sig.
Proof. apply all_chars_impl, is_tag_not_linebreak. Qed.

Lemma is_word_not_linebreak c : is_word c = true -> negb (is_linebreak c) = true.
Proof. destruct c as [[] [] [] [] [] [] [] []]; by vm_compute. Qed.

Lemma is_line_repl sym sig :
  all_chars is_word sym = true -> all_chars is_tag sig = true ->
  is_line (sym ++ "__sig: '" ++ sig ++ "'").
Proof.
  intros Hsym Hsig. unfold is_line.
  rewrite (all_chars_app _ sym), (all_chars_impl _ _ _ is_word_not_linebreak Hsym).
  change ("__sig: '" ++ sig ++ "'") with ("__sig: '" ++ (sig ++ "'")).
  rewrite (all_chars_app _ "__sig: '"), (all_chars_app _ sig).
  by rewrite (is_line_tags _ Hsig).
Qed.

Lemma update_line_items_cons sym sig items stripped l :
  update_line_items ((sym, sig) :: items) stripped l
  = if startswith stripped (sym ++ "__sig:")
    then re_sub_sig sym (sym ++ "__sig: '" ++ sig ++ "'") l
    else update_line_items items stripped l.
Proof. reflexivity. Qed.

Lemma update_line_items_line items : forall stripped l,
  wf_sig_info items -> is_line l -> is_line (update_line_items items stripped l).
Proof.
  induction items as [|[sym sig] items IH]; intros stripped l Hwf Hl; [done|].
  rewrite update_line_items_cons.
  apply wf_sig_info_cons in Hwf as (Hsym & Hsig & Hwf).
  destruct (startswith stripped (sym ++ "__sig:")); [|by apply IH].
  rewrite re_sub_sig_line by done.
  apply sub_first_all_chars; [done | by apply is_line_repl | done].
Qed.

Lemma update_line_items_key items : forall l s,
  wf_sig_info items -> is_line l -> all_chars is_word s = true ->
  startswith (strip (update_line_items items (strip l) l)) (s ++ "__sig:")
  = startswith (strip l) (s ++ "__sig:").
Proof.
  induction items as [|[sym sig] items IH]; intros l s Hwf Hl Hs; [done|].
  rewrite update_line_items_cons.
  apply wf_sig_info_cons in Hwf as (Hsym & Hsig & Hwf).
  destruct (startswith (strip l) (sym ++ "__sig:")) eqn:Hsel; [|by apply IH].
  rewrite re_sub_sig_line by done. by apply startswith_key_sub_first.
Qed.


Lemma update_line_line sig_info l :
  wf_sig_info sig_info -> is_line l -> is_line (update_line sig_info l).
Proof.
  intros Hwf Hl. unfold update_line. case_match; [done|].
  by apply update_line_items_line.
Qed.



Lemma strip_line_empty sig_info : strip_line sig_info "" = false.
Proof.
  unfold strip_line, to_remove, Dict.keys.
  induction sig_info as [|[sym sig] items IH]; simpl; [done|].
  rewrite IH. by destruct sym.
Qed.


End UpdateIdem.



(** ** The annotation line that Update rewrites as intended *)

Section UpdateAnnotated.

Implicit Types (sig_info : Dict.t string) (l sym sig indent old rest : string).

Lemma is_space_not_word c : is_space c = true -> is_word c = false.
Proof. destruct c as [[] [] [] [] [] [] [] []]; by vm_compute. Qed.

Lemma contains_app_r sub x y : contains sub y = true -> contains sub (x ++ y) = true.
Proof.
  intros Hy. induction x as [|c x IH]; simpl; [done|].
  fold (contains sub (x ++ y)). rewrite IH. apply orb_true_r.
Qed.

Lemma contains_here sub y : contains sub (sub ++ y) = true.
Proof. destruct sub; simpl; [by destruct y | by rewrite Ascii.eqb_refl, startswith_app]. Qed.

Lemma lstrip_indent indent s :
  all_chars is_space indent = true -> lstrip (indent ++ s) = lstrip s.
Proof.
  induction indent as [|c indent IH]; simpl; [done|].
  intros [-> H]%andb_prop. by apply IH.
Qed.

Lemma sub_first_indent sym repl indent s :
  all_chars is_space indent = true ->
  sub_first sym repl false (indent ++ s) = indent ++ sub_first sym repl false s.
Proof.
  induction indent as [|c indent IH]; [done|]. simpl all_chars.
  intros [Hc H]%andb_prop. apply is_space_not_word in Hc.
  change (String c indent ++ s) with (String c (indent ++ s)).
  rewrite sub_first_eq. unfold match_sig_at. simpl head_is_word.
  rewrite Hc. simpl. by rewrite IH.
Qed.

Lemma dot_star_quote_no_quote rest : quotes rest = 0 -> dot_star_quote rest = None.
Proof.
  induction rest as [|c rest IH]; simpl; [done|].
  destruct (Ascii.eqb c "'"); [done|]. intros H. rewrite IH by done.
  by destruct (Ascii.eqb c LF).
Qed.

Lemma wf_sig_info_get sig_info : forall sym sig,
  wf_sig_info sig_info -> Dict.get sig_info sym = Some sig ->
  all_chars is_word sym = true /\ all_chars is_tag sig = true.
Proof.
  induction sig_info as [|[s g] items IH]; intros sym sig Hwf Hget; [done|].
  apply wf_sig_info_cons in Hwf as (Hs & Hg & Hwf). simpl in Hget.
  destruct (String.eqb_spec s sym) as [->|Hne]; [|by apply IH].
  by injection Hget as ->.
Qed.

Lemma update_line_items_get sig_info : forall sym sig stripped l,
  wf_sig_info sig_info -> Dict.get sig_info sym = Some sig ->
  startswith stripped (sym ++ "__sig:") = true ->
  update_line_items sig_info stripped l
  = re_sub_sig sym (sym ++ "__sig: '" ++ sig ++ "'") l.
Proof.
  induction sig_info as [|[s g] items IH]; intros sym sig stripped l Hwf Hget Hsel;
    [done|].
  destruct (wf_sig_info_get _ _ _ Hwf Hget) as [Hsym _].
  apply wf_sig_info_cons in Hwf as (Hs & _ & Hwf).
  rewrite update_line_items_cons. simpl in Hget.
  destruct (String.eqb_spec s sym) as [->|Hne].
  - injection Hget as ->. by rewrite Hsel.
  - destruct (startswith stripped (s ++ "__sig:")) eqn:E; [|by apply IH].
    by destruct Hne; apply (startswith_key_inj stripped).
Qed.

(** A line that is the annotation of a mapped symbol, with no quote after
    the one that closes the signature, gets the new signature and keeps
    everything else. *)
Lemma update_line_annotated sig_info sym sig indent old rest :
  wf_sig_info sig_info -> Dict.get sig_info sym = Some sig ->
  all_chars is_space indent = true ->
  is_line (indent ++ sym ++ "__sig: '" ++ old ++ "'" ++ rest) ->
  quotes rest = 0 ->
  update_line sig_info (indent ++ sym ++ "__sig: '" ++ old ++ "'" ++ rest)
  = indent ++ sym ++ "__sig: '" ++ sig ++ "'" ++ rest.
Proof.
  intros Hwf Hget Hind Hl Hrest.
  set (lit := sym ++ "__sig: '").
  assert (Hshape : forall x, sym ++ "__sig: '" ++ x ++ "'" ++ rest
                             = lit ++ x ++ String "'" rest).
  { intros x. unfold lit. by rewrite string_app_assoc. }
  rewrite !Hshape in *.
  destruct (wf_sig_info_get _ _ _ Hwf Hget) as [Hsym Hsig].
  assert (Hsel : startswith (strip (indent ++ lit ++ old ++ String "'" rest))
                            (sym ++ "__sig:") = true).
  { rewrite startswith_strip_key, lstrip_indent by done.
    unfold lit. rewrite lstrip_lit by done.
    replace (sym ++ "__sig: '") with ((sym ++ "__sig:") ++ " '")
      by (by rewrite string_app_assoc).
    rewrite string_app_assoc. apply startswith_app. }
  unfold update_line, Dict.items.
  rewrite (update_line_items_get sig_info sym sig _ _ Hwf Hget Hsel).
  assert (contains "__sig" (indent ++ lit ++ old ++ String "'" rest) = true) as ->.
  { replace (indent ++ lit ++ old ++ String "'" rest)
      with ((indent ++ sym) ++ "__sig" ++ ": '" ++ old ++ String "'" rest)
      by (unfold lit; by rewrite !string_app_assoc).
    apply contains_app_r, contains_here. }
  simpl negb. cbv iota.
  rewrite re_sub_sig_line, sub_first_indent by done.
  f_equal. rewrite sub_first_eq. unfold match_sig_at.
  fold lit. rewrite (head_is_word_lit _ Hsym), strip_prefix_app. simpl xorb. cbv iota.
  unfold is_line in Hl.
  rewrite (all_chars_app _ indent), (all_chars_app _ lit), (all_chars_app _ old) in Hl.
  apply andb_prop in Hl as [_ [_ [Hold _]%andb_prop]%andb_prop].
  rewrite dot_star_quote_app by (done || by apply dot_star_quote_no_quote).
  unfold lit. by rewrite !string_app_assoc.
Qed.

End UpdateAnnotated.

(** C5: the claim fails on the code by a slip. The pattern ['.*'] is
    greedy: it runs to the last quote of the line, so a quote in what
    follows the signature makes the replacement swallow the text up to it
    ([update_line_annotated] is the case without such a quote). With [foo]
    mapped to [iij], the line of the example is rewritten as the claim
    says, but in [  foo__sig: 'ii',  // it's] the comma and the comment up
    to the apostrophe are lost. *)
Theorem update_line_greedy_quote :
  update_line [("foo", "iij")] "  foo__sig: 'ii',  // comment"
  = "  foo__sig: 'iij',  // comment"
  /\ update_line [("foo", "iij")] "  foo__sig: 'ii',  // it's"
     = "  foo__sig: 'iij's".
Proof. split; by vm_compute. Qed.

(** * Further properties *)

(** ** The reconciler: what a signature tells *)

Section Decode.

Implicit Types (t u : FuncType) (s : string).

(** The shape of every result of [functype_to_str]. *)
Lemma functype_to_str_inv t (t64 : FuncType) s :
  functype_to_str t t64 = Some s ->
  length (params t) = length (params t64)
  /\ exists (rtn : ascii) (tags : list ascii),
       s = String rtn (string_of_list_ascii tags)
       /\ ((returns t = [] /\ returns t64 = [] /\ rtn = "v"%char)
           \/ exists x x64, returns t = [x] /\ returns t64 = [x64]
                            /\ valuetype_to_chr x x64 = Some rtn)
       /\ Forall2 slot_tag (List.combine (params t) (params t64)) tags.
Proof.
  unfold functype_to_str.
  destruct (Nat.eqb_spec (length (returns t)) (length (returns t64))) as [Hr|];
    [|done].
  destruct (Nat.eqb_spec (length (params t)) (length (params t64))) as [Hp|];
    [|done].
  simpl. intros H. split; [done|].
  destruct (returns t) as [|x [|x' xs]]; simpl in *.
  - destruct (returns t64); [|done].
    apply append_param_chrs_spec in H as (tags & -> & Htags).
    exists "v"%char, tags. split_and!; auto.
  - destruct (returns t64) as [|x64 [|??]]; try done.
    destruct (valuetype_to_chr x x64) as [c|] eqn:Hc; [|done].
    apply append_param_chrs_spec in H as (tags & -> & Htags).
    exists c, tags. split_and!; [done| |done]. right. eauto.
  - done.
Qed.

Lemma valuetype_to_chr_inj (a b a' b' : Type_) c :
  valuetype_to_chr a b = Some c -> valuetype_to_chr a' b' = Some c ->
  a = a' /\ b = b'.
Proof. destruct a, b; try done; destruct a', b'; try done; by intros [= <-] [=]. Qed.

Lemma valuetype_to_chr_tag (a b : Type_) c :
  valuetype_to_chr a b = Some c -> is_tag c = true /\ c <> "v"%char.
Proof. destruct a, b; try done; by intros [= <-]. Qed.

Lemma valuetype_to_chr_p (a b : Type_) c :
  valuetype_to_chr a b = Some c -> (Ascii.eqb "p" c = false <-> a = b).
Proof. destruct a, b; try done; intros [= <-]; split; done. Qed.

Lemma string_of_list_ascii_inj (l l' : list ascii) :
  string_of_list_ascii l = string_of_list_ascii l' -> l = l'.
Proof.
  intros H. apply (f_equal list_ascii_of_string) in H.
  by rewrite !list_ascii_of_string_of_list_ascii in H.
Qed.

Lemma slot_tags_inj ps : forall ps' tags,
  Forall2 slot_tag ps tags -> Forall2 slot_tag ps' tags -> ps = ps'.
Proof.
  induction ps as [|[a b] ps IH]; intros ps' tags H H'.
  - inversion H; subst. by inversion H'.
  - inversion H as [|? c ? tags' Hc Hrest]; subst.
    inversion H' as [|[a' b'] ? ps'' ? Hc' Hrest']; subst.
    unfold slot_tag in *. simpl in *.
    destruct (valuetype_to_chr_inj _ _ _ _ _ Hc Hc') as [-> ->].
    by rewrite (IH _ _ Hrest Hrest').
Qed.

Lemma combine_inj {A B} (l1 : list A) : forall (l2 : list B) l1' l2',
  length l1 = length l2 -> length l1' = length l2' ->
  List.combine l1 l2 = List.combine l1' l2' -> l1 = l1' /\ l2 = l2'.
Proof.
  induction l1 as [|a l1 IH]; intros [|b l2] [|a' l1'] [|b' l2'];
    simpl; try done.
  intros [= H1] [= H2] [= -> -> H]. by destruct (IH _ _ _ H1 H2 H) as [-> ->].
Qed.

Lemma slot_tags_are_tags ps : forall tags,
  Forall2 slot_tag ps tags -> all_chars is_tag (string_of_list_ascii tags) = true.
Proof.
  induction 1 as [|[a b] c ps tags Hc _ IH]; simpl; [done|].
  apply valuetype_to_chr_tag in Hc as [-> _]. done.
Qed.

Lemma contains_p c s :
  contains "p" (String c s) = Ascii.eqb "p" c || contains "p" s.
Proof. simpl. by rewrite andb_true_r. Qed.

Lemma slot_tags_no_p ps : forall tags,
  Forall2 slot_tag ps tags ->
  contains "p" (string_of_list_ascii tags) = false <-> Forall (fun pp => pp.1 = pp.2) ps.
Proof.
  induction 1 as [|[a b] c ps tags Hc _ IH].
  - split; [constructor | done].
  - change (string_of_list_ascii (c :: tags))
      with (String c (string_of_list_ascii tags)).
    rewrite contains_p, orb_false_iff, IH, Forall_cons. simpl.
    by rewrite (valuetype_to_chr_p _ _ _ Hc).
Qed.

End Decode.

Lemma combine_diag {A} (l1 : list A) : forall l2,
  length l1 = length l2 ->
  Forall (fun pp => pp.1 = pp.2) (List.combine l1 l2) <-> l1 = l2.
Proof.
  induction l1 as [|a l1 IH]; intros [|b l2]; simpl; try done.
  intros [= H]. rewrite Forall_cons, (IH _ H). simpl. split.
  - by intros [-> ->].
  - by intros [= -> ->].
Qed.

(** X1: a signature string determines the function types of both
    compilations: two pairs of types that reconcile to the same string are
    the same pair. *)
Theorem functype_to_str_inj (t t64 u u64 : FuncType) (s : string) :
  functype_to_str t t64 = Some s -> functype_to_str u u64 = Some s ->
  t = u /\ t64 = u64.
Proof.
  intros (Hp & r & tags & -> & Hret & Htags)%functype_to_str_inv
         (Hp' & r' & tags' & [= <- <-%string_of_list_ascii_inj] & Hret' & Htags')
           %functype_to_str_inv.
  pose proof (slot_tags_inj _ _ _ Htags Htags') as Hc.
  apply combine_inj in Hc as [Hp1 Hp2]; [|done..].
  destruct t as [p1 r1], t64 as [p2 r2], u as [q1 s1], u64 as [q2 s2].
  simpl in *. subst.
  destruct Hret as [(-> & -> & ->)|(x & x64 & -> & -> & Hx)],
           Hret' as [(-> & -> & Hv)|(y & y64 & -> & -> & Hy)]; try done.
  - by apply valuetype_to_chr_tag in Hy as [_ ?].
  - by apply valuetype_to_chr_tag in Hx as [_ ?].
  - by destruct (valuetype_to_chr_inj _ _ _ _ _ Hx Hy) as [-> ->].
Qed.

Lemma functype_to_str_inj_witness :
  {| params := [I32; F64]; returns := [I32] |}
  = {| params := [I32; F64]; returns := [I32] |}
  /\ {| params := [I64; F64]; returns := [I64] |}
     = {| params := [I64; F64]; returns := [I64] |}.
Proof. apply (functype_to_str_inj _ _ _ _ "ppd"); reflexivity. Defined.

Lemma startswith_char d c s : startswith (String c s) (String d "") = Ascii.eqb d c.
Proof. simpl. apply andb_true_r. Qed.

Lemma all_chars_cons P c s : all_chars P (String c s) = P c && all_chars P s.
Proof. reflexivity. Qed.

(** X2: a signature is made of the six tags only, and it starts with [v]
    exactly when the function returns nothing. *)
Theorem functype_to_str_tags (t t64 : FuncType) (s : string) :
  functype_to_str t t64 = Some s ->
  all_chars is_tag s = true /\ (startswith s "v" = true <-> returns t = []).
Proof.
  intros (_ & r & tags & -> & Hret & Htags)%functype_to_str_inv.
  rewrite all_chars_cons, (slot_tags_are_tags _ _ Htags), andb_true_r.
  rewrite (startswith_char "v").
  destruct Hret as [(-> & _ & ->)|(x & x64 & -> & _ & Hx)].
  - done.
  - apply valuetype_to_chr_tag in Hx as [-> Hv]. split; [done|]. split; [|done].
    intros E%Ascii.eqb_eq. by destruct Hv.
Qed.

Lemma functype_to_str_tags_witness :
  all_chars is_tag "vpj" = true /\ (startswith "vpj" "v" = true <-> [] = @nil Type_).
Proof.
  apply (functype_to_str_tags {| params := [I32; I64]; returns := [] |}
                              {| params := [I64; I64]; returns := [] |}).
  reflexivity.
Defined.

(** X3: a signature holds a [p] exactly when the two compilations
    disagree: it is free of [p] if and only if the wasm32 and the wasm64
    types of the function are the same. *)
Theorem functype_to_str_pointer (t t64 : FuncType) (s : string) :
  functype_to_str t t64 = Some s ->
  contains "p" s = false <-> t = t64.
Proof.
  intros (Hp & r & tags & -> & Hret & Htags)%functype_to_str_inv.
  rewrite contains_p, orb_false_iff, (slot_tags_no_p _ _ Htags),
    (combine_diag _ _ Hp).
  destruct t as [p1 r1], t64 as [p2 r2]. simpl in *.
  destruct Hret as [(-> & -> & ->)|(x & x64 & -> & -> & Hx)].
  - split; [by intros [_ ->] | by intros [= ->]].
  - rewrite (valuetype_to_chr_p _ _ _ Hx). split.
    + by intros [-> ->].
    + by intros [= -> ->].
Qed.

Lemma functype_to_str_pointer_witness :
  contains "p" "ipi" = false
  <-> {| params := [I32; I32]; returns := [I32] |}
      = {| params := [I64; I32]; returns := [I32] |}.
Proof. apply functype_to_str_pointer. reflexivity. Defined.

(** ** Dictionaries *)

Section DictFacts.

Context {V : Type}.
Implicit Types (d : Dict.t V) (k : string) (v : V).

Lemma dict_get_set d k v k' :
  Dict.get (Dict.set d k v) k' = if String.eqb k k' then Some v else Dict.get d k'.
Proof.
  induction d as [|[k0 v0] d IH]; simpl; [done|].
  destruct (String.eqb_spec k0 k) as [->|Hne]; simpl.
  - by destruct (String.eqb_spec k k').
  - rewrite IH. destruct (String.eqb_spec k0 k') as [->|]; [|done].
    by destruct (String.eqb_spec k k').
Qed.

Lemma dict_get_None d k : Dict.get d k = None <-> k ∉ Dict.keys d.
Proof.
  induction d as [|[k0 v0] d IH]; simpl.
  - split; [intros _; apply not_elem_of_nil | done].
  - rewrite not_elem_of_cons, <- IH.
    destruct (String.eqb_spec k0 k) as [->|]; split; try done; [by intros [? _]|].
    by intros [_ ?].
Qed.

Lemma dict_get_elem_of d k v : Dict.get d k = Some v -> (k, v) ∈ Dict.items d.
Proof.
  induction d as [|[k0 v0] d IH]; simpl; [done|].
  destruct (String.eqb_spec k0 k) as [->|].
  - intros [= ->]. left.
  - intros H. right. by apply IH.
Qed.

(** In a dictionary, whose keys are unique, an item is what its key
    yields. *)
Lemma dict_elem_of_get d k v :
  NoDup (Dict.keys d) -> (k, v) ∈ Dict.items d -> Dict.get d k = Some v.
Proof.
  induction d as [|[k0 v0] d IH]; simpl; [by intros _ ?%elem_of_nil|].
  intros [Hk0 Hnd]%NoDup_cons [[= -> ->]|Hin]%elem_of_cons.
  - by rewrite String.eqb_refl.
  - destruct (String.eqb_spec k0 k) as [->|]; [|by apply IH].
    destruct Hk0. unfold Dict.keys. rewrite list_map_fmap.
    apply list_elem_of_fmap. by exists (k, v).
Qed.

Lemma dict_keys_set_new d k v :
  k ∉ Dict.keys d -> Dict.keys (Dict.set d k v) = (Dict.keys d ++ [k])%list.
Proof.
  induction d as [|[k0 v0] d IH]; simpl; [done|].
  intros [Hne Hk]%not_elem_of_cons.
  destruct (String.eqb_spec k0 k) as [->|]; [done|]. simpl. by rewrite IH.
Qed.

Lemma dict_keys_set_NoDup d k v :
  NoDup (Dict.keys d) -> NoDup (Dict.keys (Dict.set d k v)).
Proof.
  induction d as [|[k0 v0] d IH]; simpl.
  - intros _. apply NoDup_singleton.
  - intros [Hk0 Hnd]%NoDup_cons.
    destruct (String.eqb_spec k0 k) as [->|Hne]; simpl.
    + by apply NoDup_cons.
    + apply NoDup_cons. split; [|by apply IH].
      rewrite dict_keys_set. by intros [?|?].
Qed.

End DictFacts.

(** ** Reading the import types *)

Section ExtractSigs.

Implicit Types (imports : list Import) (types : list FuncType)
  (symbols : list string) (s : string).

Lemma find_snoc {A} (f : A -> bool) (l : list A) a :
  List.find f (l ++ [a])
  = match List.find f l with
    | Some x => Some x
    | None => if f a then Some a else None
    end.
Proof. induction l as [|b l IH]; simpl; [done|]. by destruct (f b). Qed.

Lemma import_map_get_from imports s : forall m : Dict.t Import,
  Dict.get (fold_left (fun m i => Dict.set m (field i) i) imports m) s
  = match import_of imports s with
    | Some i => Some i
    | None => Dict.get m s
    end.
Proof.
  unfold import_of. induction imports as [|a imports IH]; intros m; simpl; [done|].
  rewrite IH, find_snoc, dict_get_set.
  destruct (List.find _ (List.rev imports)); [done|].
  by destruct (String.eqb (field a) s).
Qed.

(** The dictionary comprehension [{i.field: i for i in imports}] maps a
    name to the last import that bears it. *)
Lemma import_map_get imports s :
  Dict.get (fold_left (fun m i => Dict.set m (field i) i) imports Dict.empty) s
  = import_of imports s.
Proof. rewrite import_map_get_from. by destruct (import_of imports s). Qed.

Lemma extract_sig_None import_map types symbols :
  fold_left (extract_sig import_map types) symbols None = None.
Proof. by induction symbols. Qed.

Lemma extract_sig_Some imports types s (d : Dict.t FuncType) :
  extract_sig
    (fold_left (fun m i => Dict.set m (field i) i) imports Dict.empty)
    types (Some d) s
  = match import_type imports types s with
    | Some t => Some (Dict.set d s t)
    | None => None
    end.
Proof.
  unfold extract_sig, import_type. rewrite import_map_get.
  destruct (import_of imports s) as [i|]; [|done]. by destruct (types !! type i).
Qed.

Lemma extract_sigs_from_Some imports types symbols : forall d0 d : Dict.t FuncType,
  fold_left
    (extract_sig
       (fold_left (fun m i => Dict.set m (field i) i) imports Dict.empty) types)
    symbols (Some d0) = Some d ->
  (forall s, s ∈ symbols -> is_Some (import_type imports types s))
  /\ (forall s, Dict.get d s
                = if decide (s ∈ symbols) then import_type imports types s
                  else Dict.get d0 s)
  /\ (NoDup (Dict.keys d0 ++ symbols) -> Dict.keys d = (Dict.keys d0 ++ symbols)%list).
Proof.
  induction symbols as [|s0 symbols IH]; intros d0 d; cbn [fold_left].
  - intros [= ->]. split_and!.
    + by intros s ?%elem_of_nil.
    + intros s. by rewrite decide_False by apply not_elem_of_nil.
    + by rewrite app_nil_r.
  - rewrite extract_sig_Some.
    destruct (import_type imports types s0) as [t0|] eqn:Ht0;
      [|by rewrite extract_sig_None].
    intros (Hres & Hget & Hkeys)%IH. split_and!.
    + intros s [->|?]%elem_of_cons; [by rewrite Ht0 | by apply Hres].
    + intros s. rewrite Hget, dict_get_set.
      destruct (decide (s ∈ symbols)) as [Hs|Hs].
      * by rewrite decide_True by by right.
      * destruct (String.eqb_spec s0 s) as [->|Hne].
        -- by rewrite decide_True by left.
        -- rewrite decide_False; [done|]. by intros [?|?]%elem_of_cons.
    + intros Hnd.
      assert (Hs0 : s0 ∉ Dict.keys d0).
      { apply NoDup_app in Hnd as (_ & Hdisj & _). intros H.
        apply (Hdisj _ H). left. }
      rewrite Hkeys; rewrite dict_keys_set_new by done;
        by rewrite <- app_assoc.
Qed.

Lemma extract_sigs_from_all imports types symbols : forall d0 : Dict.t FuncType,
  (forall s, s ∈ symbols -> is_Some (import_type imports types s)) ->
  is_Some
    (fold_left
       (extract_sig
          (fold_left (fun m i => Dict.set m (field i) i) imports Dict.empty) types)
       symbols (Some d0)).
Proof.
  induction symbols as [|s0 symbols IH]; intros d0 H; cbn [fold_left]; [done|].
  rewrite extract_sig_Some. destruct (H s0) as [t0 ->]; [left|].
  apply IH. intros s Hs. apply H. by right.
Qed.

End ExtractSigs.

(** X4: when [extract_sigs] succeeds, the result holds exactly the
    requested symbols, and each of them is mapped to the type that the
    last import of that name points to in the type table. *)
Theorem extract_sigs_lookup (symbols : list string) (imports : list Import)
    (types : list FuncType) (sig_info : Dict.t FuncType) (s : string) :
  extract_sigs symbols imports types = Some sig_info ->
  (s ∈ symbols ->
   is_Some (Dict.get sig_info s)
   /\ Dict.get sig_info s = import_type imports types s)
  /\ (s ∉ symbols -> Dict.get sig_info s = None).
Proof.
  unfold extract_sigs. intros (Hres & Hget & _)%extract_sigs_from_Some.
  rewrite Hget. split; intros Hs.
  - rewrite decide_True by done. split; [by apply Hres | done].
  - by rewrite decide_False.
Qed.

Lemma extract_sigs_lookup_witness :
  let imports := [ {| field := "foo"; type := 0 |};
                   {| field := "bar"; type := 1 |};
                   {| field := "foo"; type := 1 |} ] in
  let types := [ {| params := []; returns := [] |};
                 {| params := [I32]; returns := [I64] |} ] in
  let sig_info := [("foo", {| params := [I32]; returns := [I64] |})] in
  ("foo" ∈ ["foo"] ->
   is_Some (Dict.get sig_info "foo")
   /\ Dict.get sig_info "foo" = import_type imports types "foo")
  /\ ("foo" ∉ ["foo"] -> Dict.get sig_info "foo" = None).
Proof. apply (extract_sigs_lookup ["foo"]). reflexivity. Defined.

(** X5: [extract_sigs] fails exactly when some requested symbol does not
    resolve: no import bears its name, or the type index of the last
    import of that name is out of the range of the type table. *)
Theorem extract_sigs_fails_iff (symbols : list string) (imports : list Import)
    (types : list FuncType) :
  extract_sigs symbols imports types = None
  <-> exists s, s ∈ symbols
       /\ (import_of imports s = None
           \/ exists i, import_of imports s = Some i /\ length types <= type i).
Proof.
  assert (Hres : forall s,
             import_type imports types s = None
             <-> import_of imports s = None
                 \/ exists i, import_of imports s = Some i /\ length types <= type i).
  { intros s. unfold import_type. destruct (import_of imports s) as [i|].
    - rewrite lookup_ge_None. split; [eauto|]. by intros [?|(? & [= <-] & ?)].
    - split; auto. }
  unfold extract_sigs. split.
  - intros Hnone.
    destruct (decide (Exists (fun s => import_type imports types s = None) symbols))
      as [Hex|Hall].
    + apply Exists_exists in Hex as (s & Hs & Hn). exists s. by rewrite <- Hres.
    + apply not_Exists_Forall in Hall; [|intros s; apply _].
      rewrite Forall_forall in Hall.
      destruct (extract_sigs_from_all imports types symbols Dict.empty) as [d Hd].
      * intros s Hs. specialize (Hall s Hs). simpl in Hall.
        by destruct (import_type imports types s).
      * congruence.
  - intros (s & Hs & Hn%Hres).
    destruct (fold_left _ symbols _) as [d|] eqn:Hd; [|done].
    apply extract_sigs_from_Some in Hd as (Hall & _).
    destruct (Hall s Hs) as [t Ht]. congruence.
Qed.

(** X6: over distinct symbols, the result of [extract_sigs] lists its
    keys in the order of the request, which is the order in which the
    merge then goes through them. *)
Theorem extract_sigs_keys_order (symbols : list string) (imports : list Import)
    (types : list FuncType) (sig_info : Dict.t FuncType) :
  NoDup symbols ->
  extract_sigs symbols imports types = Some sig_info ->
  Dict.keys sig_info = symbols /\ NoDup (Dict.keys sig_info).
Proof.
  unfold extract_sigs. intros Hnd (_ & _ & Hkeys)%extract_sigs_from_Some.
  rewrite Hkeys by done. done.
Qed.

Lemma extract_sigs_keys_order_witness :
  Dict.keys [("b", {| params := []; returns := [] |});
             ("a", {| params := []; returns := [] |})] = ["b"; "a"]
  /\ NoDup (Dict.keys [("b", {| params := []; returns := [] |});
                       ("a", {| params := []; returns := [] |})]).
Proof.
  apply (extract_sigs_keys_order ["b"; "a"]
           [ {| field := "a"; type := 0 |}; {| field := "b"; type := 0 |} ]
           [ {| params := []; returns := [] |} ]).
  - apply NoDup_cons. split; [by intros ?%list_elem_of_singleton|].
    apply NoDup_singleton.
  - reflexivity.
Defined.

(** ** The merge over a whole configuration *)

Section MergeLoop.

Implicit Types (st : State) (sym k : string).

Lemma merge_symbol_eq (sig_info64 : Dict.t FuncType) sym (sig32 : FuncType) st :
  merge_symbol sig_info64 sym sig32 st
  = match Dict.get sig_info64 sym with
    | None => Abort st
    | Some sig64 =>
        match functype_to_str sig32 sig64 with
        | None => Abort st
        | Some s =>
            let merged := {| st_sig_info := Dict.set (st_sig_info st) sym s;
                             st_stdout := st_stdout st |} in
            match Dict.get (st_sig_info st) sym with
            | Some old =>
                if String.eqb old s then Done tt merged
                else Abort {| st_sig_info := st_sig_info st;
                              st_stdout := (st_stdout st ++ [sym; s; old])%list |}
            | None => Done tt merged
            end
        end
    end.
Proof.
  destruct st as [d out].
  unfold merge_symbol, bind, assert_, lift, get_sig_info, set_sig_info, print,
    ret, raise, Dict.mem.
  destruct (Dict.get sig_info64 sym) as [sig64|]; simpl; [|done].
  destruct (functype_to_str sig32 sig64) as [s|]; simpl; [|done].
  destruct (Dict.get d sym) as [old|]; simpl; [|done].
  destruct (String.eqb old s); simpl; [done|]. by rewrite <- !app_assoc.
Qed.

Lemma for_each_cons {A} (body : A -> M unit) a l st :
  for_each body (a :: l) st
  = match body a st with
    | Done _ st' => for_each body l st'
    | Abort st' => Abort st'
    end.
Proof. reflexivity. Qed.

(** What one step does when it completes. *)
Lemma merge_symbol_Done (sig_info64 : Dict.t FuncType) sym (sig32 : FuncType) st u st' :
  merge_symbol sig_info64 sym sig32 st = Done u st' ->
  exists sig64 s,
    Dict.get sig_info64 sym = Some sig64
    /\ functype_to_str sig32 sig64 = Some s
    /\ (Dict.get (st_sig_info st) sym = None \/ Dict.get (st_sig_info st) sym = Some s)
    /\ st' = {| st_sig_info := Dict.set (st_sig_info st) sym s;
                st_stdout := st_stdout st |}.
Proof.
  rewrite merge_symbol_eq.
  destruct (Dict.get sig_info64 sym) as [sig64|] eqn:H64; [|done].
  destruct (functype_to_str sig32 sig64) as [s|] eqn:Hs; [|done]. cbv zeta.
  destruct (Dict.get (st_sig_info st) sym) as [old|] eqn:Hold.
  - destruct (String.eqb_spec old s) as [->|]; [|done].
    intros [= <-]. exists sig64, s. split_and!; auto.
  - intros [= <-]. exists sig64, s. split_and!; auto.
Qed.

(** What one step does when it aborts. *)
Lemma merge_symbol_Abort (sig_info64 : Dict.t FuncType) sym (sig32 : FuncType) st st' :
  merge_symbol sig_info64 sym sig32 st = Abort st' ->
  st_sig_info st' = st_sig_info st
  /\ (st_stdout st' = st_stdout st
      \/ exists sig64 s old,
           Dict.get sig_info64 sym = Some sig64
           /\ functype_to_str sig32 sig64 = Some s
           /\ Dict.get (st_sig_info st) sym = Some old /\ old <> s
           /\ st_stdout st' = (st_stdout st ++ [sym; s; old])%list).
Proof.
  rewrite merge_symbol_eq.
  destruct (Dict.get sig_info64 sym) as [sig64|] eqn:H64; [|intros [= <-]; auto].
  destruct (functype_to_str sig32 sig64) as [s|] eqn:Hs; [|intros [= <-]; auto].
  cbv zeta.
  destruct (Dict.get (st_sig_info st) sym) as [old|] eqn:Hold; [|done].
  destruct (String.eqb_spec old s) as [->|Hne]; [done|].
  intros [= <-]. simpl. split; [done|]. right. exists sig64, s, old.
  split_and!; auto.
Qed.

(** A recorded signature survives a step, however the step ends. *)
Lemma merge_symbol_keeps (sig_info64 : Dict.t FuncType) sym (sig32 : FuncType) st k old :
  Dict.get (st_sig_info st) k = Some old ->
  Dict.get (st_sig_info (outcome_state (merge_symbol sig_info64 sym sig32 st))) k
  = Some old.
Proof.
  intros Hk. destruct (merge_symbol sig_info64 sym sig32 st) as [u st'|st'] eqn:E.
  - apply merge_symbol_Done in E as (sig64 & s & _ & _ & Hrec & ->). simpl.
    rewrite dict_get_set. destruct (String.eqb_spec sym k) as [->|]; [|done].
    destruct Hrec; congruence.
  - apply merge_symbol_Abort in E as [E _]. simpl. by rewrite E.
Qed.

Lemma merge_sig_info_keeps_from (sig_info64 : Dict.t FuncType)
    (items : list (string * FuncType)) : forall st k old,
  Dict.get (st_sig_info st) k = Some old ->
  Dict.get
    (st_sig_info
       (outcome_state
          (for_each (fun '(sym, sig32) => merge_symbol sig_info64 sym sig32)
                    items st))) k
  = Some old.
Proof.
  induction items as [|[sym sig32] items IH]; intros st k old Hk; [done|].
  rewrite for_each_cons.
  pose proof (merge_symbol_keeps sig_info64 sym sig32 st k old Hk) as Hstep.
  destruct (merge_symbol sig_info64 sym sig32 st) as [u st1|st1]; simpl in *.
  - by apply IH.
  - done.
Qed.

Lemma merge_sig_info_Done_from (sig_info64 : Dict.t FuncType)
    (items : list (string * FuncType)) : forall st st',
  for_each (fun '(sym, sig32) => merge_symbol sig_info64 sym sig32) items st
  = Done tt st' ->
  st_stdout st' = st_stdout st
  /\ (forall sym sig32, (sym, sig32) ∈ items ->
        exists sig64 s,
          Dict.get sig_info64 sym = Some sig64
          /\ functype_to_str sig32 sig64 = Some s
          /\ Dict.get (st_sig_info st') sym = Some s)
  /\ (forall k, is_Some (Dict.get (st_sig_info st') k)
                <-> is_Some (Dict.get (st_sig_info st) k) \/ k ∈ Dict.keys items).
Proof.
  induction items as [|[sym sig32] items IH]; intros st st'.
  - intros [= <-]. split_and!; [done| |].
    + by intros ?? ?%elem_of_nil.
    + intros k. simpl. rewrite elem_of_nil. tauto.
  - rewrite for_each_cons.
    destruct (merge_symbol sig_info64 sym sig32 st) as [u st1|st1] eqn:E; [|done].
    intros Hrest. pose proof Hrest as (Hout & Hitems & Hkeys)%IH.
    apply merge_symbol_Done in E as (sig64 & s & H64 & Hs & _ & ->).
    simpl in *. split_and!; [done| |].
    + intros sym' sig32' [[= -> ->]|Hin]%elem_of_cons; [|by apply Hitems].
      exists sig64, s. split_and!; [done..|].
      pose proof (merge_sig_info_keeps_from sig_info64 items
                    {| st_sig_info := Dict.set (st_sig_info st) sym s;
                       st_stdout := st_stdout st |} sym s) as Hk.
      rewrite Hrest in Hk. apply Hk. simpl.
      by rewrite dict_get_set, String.eqb_refl.
    + intros k.
      change (Dict.keys ((sym, sig32) :: items)) with (sym :: Dict.keys items).
      rewrite Hkeys, dict_get_set, elem_of_cons.
      destruct (String.eqb_spec sym k) as [->|Hne].
      * split; [auto|]. intros _. left. by eexists.
      * split; [tauto|]. intros [?|[?|?]]; [tauto|congruence|tauto].
Qed.

Lemma merge_sig_info_Abort_from (sig_info64 : Dict.t FuncType)
    (items : list (string * FuncType)) : forall st st',
  for_each (fun '(sym, sig32) => merge_symbol sig_info64 sym sig32) items st
  = Abort st' ->
  st_stdout st' = st_stdout st
  \/ exists sym sig32 sig64 s old,
       (sym, sig32) ∈ items
       /\ Dict.get sig_info64 sym = Some sig64
       /\ functype_to_str sig32 sig64 = Some s
       /\ Dict.get (st_sig_info st') sym = Some old /\ old <> s
       /\ st_stdout st' = (st_stdout st ++ [sym; s; old])%list.
Proof.
  induction items as [|[sym sig32] items IH]; intros st st'; [done|].
  rewrite for_each_cons.
  destruct (merge_symbol sig_info64 sym sig32 st) as [u st1|st1] eqn:E.
  - apply merge_symbol_Done in E as (_ & s0 & _ & _ & _ & ->).
    intros [Hout|(sym' & sig32' & sig64 & s & old & Hin & ?)]%IH; [by left|].
    right. exists sym', sig32', sig64, s, old. split; [by right | done].
  - intros [= <-]. apply merge_symbol_Abort in E as [Hd [Hout|Hrep]]; [by left|].
    destruct Hrep as (sig64 & s & old & ? & ? & ? & ? & ?).
    right. exists sym, sig32, sig64, s, old. rewrite Hd. split; [left | done].
Qed.

Lemma wf_sig_info_set (d : Dict.t string) sym sig :
  wf_sig_info d -> all_chars is_word sym = true -> all_chars is_tag sig = true ->
  wf_sig_info (Dict.set d sym sig).
Proof.
  unfold wf_sig_info. intros Hd Hsym Hsig.
  induction d as [|[k v] d IH]; simpl in *.
  - by rewrite Hsym, Hsig.
  - apply andb_prop in Hd as [Hkv Hd].
    destruct (String.eqb k sym); simpl; [by rewrite Hsym, Hsig | by rewrite Hkv, IH].
Qed.

End MergeLoop.

Lemma functype_to_str_all_tags (t t64 : FuncType) (s : string) :
  functype_to_str t t64 = Some s -> all_chars is_tag s = true.
Proof.
  intros (_ & r & tags & -> & Hret & Htags)%functype_to_str_inv.
  rewrite all_chars_cons, (slot_tags_are_tags _ _ Htags), andb_true_r.
  destruct Hret as [(_ & _ & ->)|(x & x64 & _ & _ & Hx)]; [done|].
  by apply valuetype_to_chr_tag in Hx as [-> _].
Qed.

Lemma merge_sig_info_again (sig_info64 : Dict.t FuncType)
    (items : list (string * FuncType)) (st : State) :
  (forall sym sig32, (sym, sig32) ∈ items ->
     exists sig64 s,
       Dict.get sig_info64 sym = Some sig64
       /\ functype_to_str sig32 sig64 = Some s
       /\ Dict.get (st_sig_info st) sym = Some s) ->
  for_each (fun '(sym, sig32) => merge_symbol sig_info64 sym sig32) items st
  = Done tt st.
Proof.
  induction items as [|[sym sig32] items IH]; intros H; [done|].
  rewrite for_each_cons, merge_symbol_eq.
  destruct (H sym sig32) as (sig64 & s & -> & -> & Hs); [left|].
  cbv zeta. rewrite Hs, String.eqb_refl, dict_set_same by done.
  destruct st as [d out]. simpl. apply IH.
  intros sym' sig32' Hin. apply H. by right.
Qed.

Lemma merge_sig_info_wf_from (sig_info64 : Dict.t FuncType)
    (items : list (string * FuncType)) : forall st,
  wf_sig_info (st_sig_info st) ->
  Forall (fun it => all_chars is_word it.1 = true) items ->
  wf_sig_info
    (st_sig_info
       (outcome_state
          (for_each (fun '(sym, sig32) => merge_symbol sig_info64 sym sig32)
                    items st))).
Proof.
  induction items as [|[sym sig32] items IH]; intros st Hwf Hids; [done|].
  apply Forall_cons in Hids as [Hsym Hids]. rewrite for_each_cons.
  destruct (merge_symbol sig_info64 sym sig32 st) as [u st1|st1] eqn:E.
  - apply IH; [|done].
    apply merge_symbol_Done in E as (sig64 & s & _ & Hs & _ & ->). simpl.
    apply wf_sig_info_set; [done..|]. by eapply functype_to_str_all_tags.
  - apply merge_symbol_Abort in E as [E _]. simpl. by rewrite E.
Qed.

(** X7: a signature that the mapping holds is never changed by a merge,
    whether the merge completes or aborts half-way. *)
Theorem merge_sig_info_keeps (sig_info32 sig_info64 : Dict.t FuncType)
    (st : State) (sym old : string) :
  Dict.get (st_sig_info st) sym = Some old ->
  Dict.get (st_sig_info (outcome_state (merge_sig_info sig_info32 sig_info64 st)))
           sym
  = Some old.
Proof. apply merge_sig_info_keeps_from. Qed.

Lemma merge_sig_info_keeps_witness :
  let vj := [("new", {| params := []; returns := [] |});
             ("bar", {| params := [I64]; returns := [] |})] in
  let st := {| st_sig_info := [("bar", "vi")]; st_stdout := [] |} in
  Dict.get (st_sig_info (outcome_state (merge_sig_info vj vj st))) "bar"
  = Some "vi".
Proof. apply merge_sig_info_keeps. reflexivity. Defined.

(** X8: a merge that completes prints nothing, records for every symbol
    of the configuration the signature reconciled from its two types, and
    adds no key besides these symbols. *)
Theorem merge_sig_info_done (sig_info32 sig_info64 : Dict.t FuncType)
    (st st' : State) :
  merge_sig_info sig_info32 sig_info64 st = Done tt st' ->
  st_stdout st' = st_stdout st
  /\ (forall sym sig32, Dict.get sig_info32 sym = Some sig32 ->
        exists sig64 s,
          Dict.get sig_info64 sym = Some sig64
          /\ functype_to_str sig32 sig64 = Some s
          /\ Dict.get (st_sig_info st') sym = Some s)
  /\ (forall k, is_Some (Dict.get (st_sig_info st') k)
                <-> is_Some (Dict.get (st_sig_info st) k)
                    \/ is_Some (Dict.get sig_info32 k)).
Proof.
  intros (Hout & Hitems & Hkeys)%merge_sig_info_Done_from. split_and!; [done| |].
  - intros sym sig32 Hget. apply Hitems. by apply dict_get_elem_of.
  - intros k. rewrite Hkeys. unfold Dict.items.
    assert (k ∈ Dict.keys sig_info32 <-> is_Some (Dict.get sig_info32 k)) as ->;
      [|done].
    rewrite <- not_eq_None_Some, dict_get_None. split; [auto|]. apply dec_stable.
Qed.

Lemma merge_sig_info_done_witness :
  let p32 := [("foo", {| params := [I32]; returns := [I32] |})] in
  let p64 := [("foo", {| params := [I64]; returns := [I32] |})] in
  let st := {| st_sig_info := [("bar", "vi")]; st_stdout := [] |} in
  let st' := {| st_sig_info := [("bar", "vi"); ("foo", "ip")]; st_stdout := [] |} in
  st_stdout st' = st_stdout st
  /\ (forall sym sig32, Dict.get p32 sym = Some sig32 ->
        exists sig64 s,
          Dict.get p64 sym = Some sig64
          /\ functype_to_str sig32 sig64 = Some s
          /\ Dict.get (st_sig_info st') sym = Some s)
  /\ (forall k, is_Some (Dict.get (st_sig_info st') k)
                <-> is_Some (Dict.get (st_sig_info st) k)
                    \/ is_Some (Dict.get p32 k)).
Proof.
  apply (merge_sig_info_done [("foo", {| params := [I32]; returns := [I32] |})]
                             [("foo", {| params := [I64]; returns := [I32] |})]).
  reflexivity.
Defined.

(** X9: merging the same configuration a second time completes and
    changes nothing. *)
Theorem merge_sig_info_idempotent (sig_info32 sig_info64 : Dict.t FuncType)
    (st st' : State) :
  merge_sig_info sig_info32 sig_info64 st = Done tt st' ->
  merge_sig_info sig_info32 sig_info64 st' = Done tt st'.
Proof.
  intros (_ & Hitems & _)%merge_sig_info_Done_from.
  by apply merge_sig_info_again.
Qed.

Lemma merge_sig_info_idempotent_witness :
  let p32 := [("foo", {| params := [I32]; returns := [I32] |})] in
  let p64 := [("foo", {| params := [I64]; returns := [I32] |})] in
  merge_sig_info p32 p64
    {| st_sig_info := [("bar", "vi"); ("foo", "ip")]; st_stdout := [] |}
  = Done tt {| st_sig_info := [("bar", "vi"); ("foo", "ip")]; st_stdout := [] |}.
Proof.
  apply (merge_sig_info_idempotent _ _
           {| st_sig_info := [("bar", "vi")]; st_stdout := [] |}).
  reflexivity.
Defined.

(** X10: merging configurations whose symbols are identifiers keeps the
    mapping well formed: identifiers mapped to strings of tags, which is
    what the idempotence of Update asks of it. *)
Theorem merge_sig_info_wf (sig_info32 sig_info64 : Dict.t FuncType) (st : State) :
  wf_sig_info (st_sig_info st) ->
  Forall (fun sym => all_chars is_word sym = true) (Dict.keys sig_info32) ->
  wf_sig_info
    (st_sig_info (outcome_state (merge_sig_info sig_info32 sig_info64 st))).
Proof.
  intros Hwf Hids. apply merge_sig_info_wf_from; [done|].
  unfold Dict.keys in Hids. rewrite list_map_fmap in Hids.
  by apply Forall_fmap in Hids.
Qed.

Lemma merge_sig_info_wf_witness :
  let p32 := [("foo", {| params := [I32]; returns := [I32] |})] in
  let p64 := [("foo", {| params := [I64]; returns := [I32] |})] in
  wf_sig_info
    (st_sig_info
       (outcome_state
          (merge_sig_info p32 p64
             {| st_sig_info := [("bar", "vi")]; st_stdout := [] |}))).
Proof.
  apply merge_sig_info_wf; [reflexivity|].
  repeat constructor.
Defined.

(** X11: a merge that aborts has printed either nothing (a type is
    missing or the two types do not reconcile) or exactly three lines: a
    symbol of the configuration, the signature just inferred for it and
    the different one on record. *)
Theorem merge_sig_info_abort_report (sig_info32 sig_info64 : Dict.t FuncType)
    (st st' : State) :
  merge_sig_info sig_info32 sig_info64 st = Abort st' ->
  st_stdout st' = st_stdout st
  \/ exists sym sig32 sig64 s old,
       (sym, sig32) ∈ Dict.items sig_info32
       /\ Dict.get sig_info64 sym = Some sig64
       /\ functype_to_str sig32 sig64 = Some s
       /\ Dict.get (st_sig_info st') sym = Some old /\ old <> s
       /\ st_stdout st' = (st_stdout st ++ [sym; s; old])%list.
Proof. apply merge_sig_info_Abort_from. Qed.

Lemma merge_sig_info_abort_report_witness :
  let vj := [("bar", {| params := [I64]; returns := [] |})] in
  let st := {| st_sig_info := [("bar", "vi")]; st_stdout := ["x"] |} in
  let st' := {| st_sig_info := [("bar", "vi")];
                st_stdout := ["x"; "bar"; "vj"; "vi"] |} in
  st_stdout st' = st_stdout st
  \/ exists sym sig32 sig64 s old,
       (sym, sig32) ∈ Dict.items vj
       /\ Dict.get vj sym = Some sig64
       /\ functype_to_str sig32 sig64 = Some s
       /\ Dict.get (st_sig_info st') sym = Some old /\ old <> s
       /\ st_stdout st' = (st_stdout st ++ [sym; s; old])%list.
Proof.
  apply (merge_sig_info_abort_report
           [("bar", {| params := [I64]; returns := [] |})]
           [("bar", {| params := [I64]; returns := [] |})]).
  reflexivity.
Defined.

(** X12: a configuration that infers for one of its symbols a signature
    different from the recorded one never merges: the run aborts. *)
Theorem merge_sig_info_contradiction (sig_info32 sig_info64 : Dict.t FuncType)
    (st : State) (sym : string) (sig32 sig64 : FuncType) (s old : string) :
  Dict.get sig_info32 sym = Some sig32 ->
  Dict.get sig_info64 sym = Some sig64 ->
  functype_to_str sig32 sig64 = Some s ->
  Dict.get (st_sig_info st) sym = Some old ->
  old <> s ->
  exists st', merge_sig_info sig_info32 sig_info64 st = Abort st'.
Proof.
  intros H32 H64 Hs Hold Hne.
  destruct (merge_sig_info sig_info32 sig_info64 st) as [[] st'|st'] eqn:E;
    [|by eexists].
  pose proof (merge_sig_info_keeps_from sig_info64 (Dict.items sig_info32)
                st sym old Hold) as Hkeep.
  unfold merge_sig_info in E. rewrite E in Hkeep. simpl in Hkeep.
  apply merge_sig_info_Done_from in E as (_ & Hitems & _).
  destruct (Hitems sym sig32) as (sig64' & s' & H64' & Hs' & Hget);
    [by apply dict_get_elem_of|].
  congruence.
Qed.

Lemma merge_sig_info_contradiction_witness :
  let vj := [("foo", {| params := []; returns := [] |});
             ("bar", {| params := [I64]; returns := [] |})] in
  exists st',
    merge_sig_info vj vj {| st_sig_info := [("bar", "vi")]; st_stdout := [] |}
    = Abort st'.
Proof.
  apply (merge_sig_info_contradiction _ _ _ "bar"
           {| params := [I64]; returns := [] |}
           {| params := [I64]; returns := [] |} "vj" "vi");
    [reflexivity | reflexivity | reflexivity | reflexivity | discriminate].
Defined.

(** ** The filter in its two modes *)

Lemma ignore_symbol_cxx s :
  ignore_symbol s true = ignore_symbol s false || String.eqb s "__asctime_r".
Proof.
  unfold ignore_symbol, is_cxx_exception.
  repeat (case_match; [done|]).
  rewrite andb_true_l, andb_false_l, orb_false_l. apply orb_comm.
Qed.

(** X13: the filter for C++ keeps what the filter for C keeps, in the
    same order, except [__asctime_r]. *)
Theorem filter_symbols_cxx (symbols : list string) :
  filter_symbols symbols true
  = List.filter (fun s => negb (String.eqb s "__asctime_r"))
                (filter_symbols symbols false).
Proof.
  unfold filter_symbols. induction symbols as [|s symbols IH]; simpl; [done|].
  rewrite ignore_symbol_cxx.
  destruct (ignore_symbol s false); simpl; [done|].
  destruct (String.eqb s "__asctime_r"); simpl; by rewrite IH.
Qed.

(** ** The entries of the stub *)

Section Entries.

Lemma string_app_inv_head (p x y : string) : p ++ x = p ++ y -> x = y.
Proof. induction p as [|c p IH]; simpl; [done|]. intros [= H]. by apply IH. Qed.

Lemma symbol_entry_wasi s :
  s ∈ wasi_symbols -> symbol_entry s = "  (void*)&" ++ ("__wasi_" ++ s) ++ ",".
Proof.
  intros Hs. unfold symbol_entry. rewrite bool_decide_eq_true_2 by done.
  by rewrite string_app_assoc.
Qed.

Lemma symbol_entry_other s :
  s ∉ wasi_symbols -> symbol_entry s = "  (void*)&" ++ s ++ ",".
Proof. intros Hs. unfold symbol_entry. by rewrite bool_decide_eq_false_2. Qed.

(** The name whose address the entry of [s] takes. *)
Lemma symbol_entry_name s :
  exists name,
    symbol_entry s = "  (void*)&" ++ name ++ ","
    /\ (s ∈ wasi_symbols /\ name = ("__wasi_" ++ s)
        \/ (s ∉ wasi_symbols) /\ name = s).
Proof.
  destruct (decide (s ∈ wasi_symbols)) as [Hs|Hs].
  - exists ("__wasi_" ++ s). split; [by apply symbol_entry_wasi | auto].
  - exists s. split; [by apply symbol_entry_other | auto].
Qed.

Lemma symbol_entry_name_inj (n n' : string) :
  "  (void*)&" ++ n ++ "," = "  (void*)&" ++ n' ++ "," -> n = n'.
Proof. intros H%string_app_inv_head. by apply string_app_inv_tail in H. Qed.

End Entries.

(** X14: two symbols get the same entry in the stub only if they are the
    same symbol, or if one is a WASI symbol and the other, not a WASI
    symbol, is named like it with [__wasi_] in front. A list of distinct
    symbols of which none starts with [__wasi_] thus gives distinct
    entries. *)
Theorem symbol_entry_collisions :
  (forall s s' : string,
      symbol_entry s = symbol_entry s' <->
      s = s'
      \/ (s ∈ wasi_symbols /\ (s' ∉ wasi_symbols) /\ s' = ("__wasi_" ++ s))
      \/ (s' ∈ wasi_symbols /\ (s ∉ wasi_symbols) /\ s = ("__wasi_" ++ s')))
  /\ (forall symbol_list : list string,
        NoDup symbol_list ->
        Forall (fun s => startswith s "__wasi_" = false) symbol_list ->
        NoDup (List.map symbol_entry symbol_list)).
Proof.
  assert (Hiff : forall s s' : string,
      symbol_entry s = symbol_entry s' <->
      s = s'
      \/ (s ∈ wasi_symbols /\ (s' ∉ wasi_symbols) /\ s' = ("__wasi_" ++ s))
      \/ (s' ∈ wasi_symbols /\ (s ∉ wasi_symbols) /\ s = ("__wasi_" ++ s'))).
  { intros s s'. split.
    - destruct (symbol_entry_name s) as (n & -> & Hn),
               (symbol_entry_name s') as (n' & -> & Hn').
      intros <-%symbol_entry_name_inj.
      destruct Hn as [[Hs ->]|[Hs ->]], Hn' as [[Hs' E]|[Hs' E]].
      + left. by apply string_app_inv_head in E.
      + right. left. auto.
      + right. right. auto.
      + by left.
    - intros [->|[(Hs & Hs' & ->)|(Hs' & Hs & ->)]]; [done| |].
      + by rewrite (symbol_entry_wasi _ Hs), (symbol_entry_other _ Hs').
      + by rewrite (symbol_entry_wasi _ Hs'), (symbol_entry_other _ Hs). }
  split; [done|].
  intros symbol_list Hnd Hpre. rewrite list_map_fmap.
  apply NoDup_fmap_2_strong; [|done].
  intros s s' Hs Hs' [->|[(_ & _ & ->)|(_ & _ & ->)]]%Hiff; [done| |].
  - rewrite Forall_forall in Hpre. specialize (Hpre _ Hs').
    by rewrite startswith_app in Hpre.
  - rewrite Forall_forall in Hpre. specialize (Hpre _ Hs).
    by rewrite startswith_app in Hpre.
Qed.

(** ** The consolidated file *)

Section SigLibrary.

Implicit Types (a b c : string * string) (sig_info : Dict.t string).

Lemma string_compare_refl (x : string) : String.compare x x = Eq.
Proof.
  pose proof (String.compare_antisym x x) as H.
  by destruct (String.compare x x).
Qed.

Lemma string_compare_Lt (x y : string) :
  String.compare x y = Lt <-> String.le x y /\ x <> y.
Proof.
  unfold String.le, String.leb. split.
  - intros H. rewrite H. split; [done|]. intros ->.
    by rewrite string_compare_refl in H.
  - intros [Hle Hne]. destruct (String.compare x y) eqn:E; try done.
    by apply String.compare_eq_iff in E.
Qed.

Lemma item_le_iff a b :
  item_le a b <-> String.le a.1 b.1 /\ (a.1 = b.1 -> String.le a.2 b.2).
Proof.
  unfold item_le, item_leb. destruct (String.compare a.1 b.1) eqn:E.
  - apply String.compare_eq_iff in E. rewrite E. split.
    + intros H. split; [|by intros _; apply Is_true_true].
      unfold String.le, String.leb. by rewrite string_compare_refl.
    + intros [_ H]. apply Is_true_true. by apply H.
  - apply string_compare_Lt in E as [Hle Hne]. split; [|done].
    intros _. split; [done | by intros ?].
  - split; [done|]. intros [Hle _]. unfold String.le, String.leb in Hle.
    by rewrite E in Hle.
Qed.

#[global] Instance item_le_trans : Transitive item_le.
Proof.
  intros a b c. rewrite !item_le_iff. intros [H1 H1'] [H2 H2']. split.
  - by transitivity b.1.
  - intros E. assert (a.1 = b.1) as Eab.
    { apply (anti_symm String.le); [done|]. by rewrite E. }
    transitivity b.2; [by apply H1'|]. apply H2'. congruence.
Qed.

#[global] Instance item_le_antisymm : AntiSymm (=) item_le.
Proof.
  intros [a1 a2] [b1 b2]. rewrite !item_le_iff. simpl. intros [H1 H1'] [H2 H2'].
  assert (a1 = b1) as -> by by apply (anti_symm String.le).
  f_equal. apply (anti_symm String.le); auto.
Qed.

#[global] Instance item_le_total : Total item_le.
Proof.
  intros a b. rewrite !item_le_iff.
  destruct (decide (a.1 = b.1)) as [E|Hne].
  - rewrite E. destruct (total String.le a.2 b.2); [left | right]; by split.
  - destruct (total String.le a.1 b.1); [left | right]; split; try done;
      by intros ?.
Qed.

Lemma sorted_items_perm sig_info : sorted_items sig_info ≡ₚ Dict.items sig_info.
Proof. apply merge_sort_Permutation. Qed.

Lemma sorted_items_unique (d1 d2 : Dict.t string) :
  Dict.items d1 ≡ₚ Dict.items d2 -> sorted_items d1 = sorted_items d2.
Proof.
  intros Hp. apply (Sorted_unique item_le).
  - apply Sorted_merge_sort, _.
  - apply Sorted_merge_sort, _.
  - by rewrite !sorted_items_perm.
Qed.

Lemma sig_library_lines_eq sig_info :
  sig_library_lines sig_info
  = ([ "/* Auto-generated by tools/gen_sig_info.py. DO NOT EDIT. */"; ""; "sigs = {" ]
     ++ List.map sig_line (sorted_items sig_info)
     ++ [ "}"; "";
          "// We have to merge with `allowMissing` since this file contains signatures";
          "// for functions that might not exist in all build configurations.";
          "addToLibrary(sigs, {allowMissing: true});" ])%list.
Proof. unfold sig_library_lines. by rewrite fold_left_snoc, <- app_assoc. Qed.

End SigLibrary.

(** X15: the consolidated file does not depend on the order in which the
    signatures were inferred: two mappings with the same items yield the
    same lines, hence the same file. *)
Theorem write_sig_library_order (d1 d2 : Dict.t string) :
  Dict.items d1 ≡ₚ Dict.items d2 ->
  sig_library_lines d1 = sig_library_lines d2
  /\ forall filename fs,
       write_sig_library filename d1 fs = write_sig_library filename d2 fs.
Proof.
  intros Hp. assert (sig_library_lines d1 = sig_library_lines d2) as E.
  { unfold sig_library_lines. by rewrite (sorted_items_unique d1 d2). }
  split; [done|]. intros filename fs. unfold write_sig_library. by rewrite E.
Qed.

Lemma write_sig_library_order_witness :
  let d1 := [("foo", "ii"); ("bar", "vp")] in
  let d2 := [("bar", "vp"); ("foo", "ii")] in
  sig_library_lines d1 = sig_library_lines d2
  /\ forall filename fs,
       write_sig_library filename d1 fs = write_sig_library filename d2 fs.
Proof. apply write_sig_library_order. apply perm_swap. Defined.

(** X16: between three opening lines and five closing lines, the
    consolidated file holds one annotation line per item of the mapping,
    and these lines come in ascending order of the symbols. *)
Theorem sig_library_lines_sorted (sig_info : Dict.t string) :
  exists sorted : list (string * string),
    sig_library_lines sig_info
    = ([ "/* Auto-generated by tools/gen_sig_info.py. DO NOT EDIT. */"; "";
         "sigs = {" ]
       ++ List.map sig_line sorted
       ++ [ "}"; "";
            "// We have to merge with `allowMissing` since this file contains signatures";
            "// for functions that might not exist in all build configurations.";
            "addToLibrary(sigs, {allowMissing: true});" ])%list
    /\ sorted ≡ₚ Dict.items sig_info
    /\ StronglySorted (fun a b => String.le a.1 b.1) sorted.
Proof.
  exists (sorted_items sig_info). split_and!.
  - apply sig_library_lines_eq.
  - apply sorted_items_perm.
  - pose proof (StronglySorted_merge_sort item_le (Dict.items sig_info)) as H.
    fold (sorted_items sig_info) in H.
    induction H as [|a l _ IH Hall]; constructor; [done|].
    eapply Forall_impl; [done|]. intros b. rewrite item_le_iff. by intros [? _].
Qed.

Section SigLibraryLines.

Implicit Types (sig_info : Dict.t string) (sym sig l : string).

Lemma wf_sig_info_elem sig_info sym sig :
  wf_sig_info sig_info -> (sym, sig) ∈ Dict.items sig_info ->
  all_chars is_word sym = true /\ all_chars is_tag sig = true.
Proof.
  induction sig_info as [|[k v] d IH]; [by intros _ ?%elem_of_nil|].
  intros (Hk & Hv & Hd)%wf_sig_info_cons [[= -> ->]|Hin]%elem_of_cons; [done|].
  by apply IH.
Qed.

Lemma sig_line_eq sym sig :
  sig_line (sym, sig) = "  " ++ sym ++ "__sig: '" ++ sig ++ "'" ++ ",".
Proof. reflexivity. Qed.

Lemma is_line_sig_line sym sig :
  all_chars is_word sym = true -> all_chars is_tag sig = true ->
  is_line (sig_line (sym, sig)).
Proof.
  intros Hsym Hsig. unfold is_line. rewrite sig_line_eq.
  rewrite (all_chars_app _ "  "), (all_chars_app _ sym),
    (all_chars_app _ "__sig: '"), (all_chars_app _ sig).
  rewrite (all_chars_impl _ _ _ is_word_not_linebreak Hsym).
  by rewrite (is_line_tags _ Hsig).
Qed.

(** The line of a symbol in the consolidated file starts, blanks apart,
    with the annotation of that symbol. *)
Lemma startswith_strip_sig_line sym sig :
  all_chars is_word sym = true ->
  startswith (strip (sig_line (sym, sig))) (sym ++ "__sig:") = true.
Proof.
  intros Hsym. rewrite startswith_strip_key, sig_line_eq.
  rewrite (lstrip_indent "  ") by done.
  rewrite <- (string_app_assoc sym), lstrip_lit by done.
  replace (sym ++ "__sig: '") with ((sym ++ "__sig:") ++ " '")
    by (by rewrite string_app_assoc).
  rewrite string_app_assoc. apply startswith_app.
Qed.

Lemma sig_library_lines_lines sig_info :
  wf_sig_info sig_info -> Forall is_line (sig_library_lines sig_info).
Proof.
  intros Hwf. rewrite sig_library_lines_eq, !Forall_app. split_and!.
  - by repeat constructor.
  - rewrite list_map_fmap, Forall_fmap, Forall_forall. intros [sym sig] Hin.
    rewrite sorted_items_perm in Hin.
    destruct (wf_sig_info_elem _ _ _ Hwf Hin). by apply is_line_sig_line.
  - by repeat constructor.
Qed.

Lemma sig_library_lines_nonempty sig_info : sig_library_lines sig_info <> [].
Proof. by rewrite sig_library_lines_eq. Qed.

(** A line without [__sig] is the annotation of no symbol. *)
Lemma strip_line_no_sig sig_info l :
  contains "__sig" (strip l) = false -> strip_line sig_info l = false.
Proof.
  intros Hl. unfold strip_line, to_remove, Dict.keys.
  induction sig_info as [|[sym sig] d IH]; simpl; [done|].
  rewrite IH, orb_false_r.
  destruct (startswith (strip l) (sym ++ "__sig:")) eqn:E; [|done].
  rewrite startswith_strip_prefix in E.
  destruct (strip_prefix (sym ++ "__sig:") (strip l)) as [r|] eqn:Hr; [|done].
  apply strip_prefix_Some in Hr. rewrite Hr in Hl.
  replace (sym ++ "__sig:") with (sym ++ "__sig" ++ ":") in Hl by done.
  rewrite !string_app_assoc in Hl.
  by rewrite contains_app_r in Hl by apply contains_here.
Qed.

Lemma strip_line_key sig_info sym l :
  sym ∈ Dict.keys sig_info ->
  startswith (strip l) (sym ++ "__sig:") = true ->
  strip_line sig_info l = true.
Proof.
  intros Hin Hl. unfold strip_line, to_remove.
  apply existsb_exists. exists (sym ++ "__sig:"). split; [|done].
  apply (in_map (fun s => s ++ "__sig:") _ sym). by apply list_elem_of_In.
Qed.

Lemma strip_line_false sig_info l :
  strip_line sig_info l = false <->
  Forall (fun it => startswith (strip l) (it.1 ++ "__sig:") = false) sig_info.
Proof.
  unfold strip_line, to_remove, Dict.keys.
  induction sig_info as [|[sym sig] d IH]; simpl.
  - split; [constructor | done].
  - rewrite orb_false_iff, IH, Forall_cons. done.
Qed.

End SigLibraryLines.

Lemma update_text_library_fixed (sig_info : Dict.t string) :
  wf_sig_info sig_info -> NoDup (Dict.keys sig_info) ->
  update_text sig_info (join_lines (sig_library_lines sig_info) ++ nl)
  = join_lines (sig_library_lines sig_info) ++ nl.
Proof.
  intros Hwf Hnd. unfold update_text.
  rewrite splitlines_join
    by (by apply sig_library_lines_lines || apply sig_library_lines_nonempty).
  f_equal. f_equal. rewrite sig_library_lines_eq, !List.map_app. f_equal.
  f_equal. rewrite !list_map_fmap, <- list_fmap_compose.
  apply list_fmap_ext. intros i [sym sig] Hi%list_elem_of_lookup_2.
  rewrite sorted_items_perm in Hi. simpl.
  destruct (wf_sig_info_elem _ _ _ Hwf Hi) as [Hsym Hsig].
  apply (update_line_annotated sig_info sym sig "  " sig ","); try done.
  - by apply dict_elem_of_get.
  - by apply is_line_sig_line.
Qed.

(** X17: the consolidated file is a fixed point of Update: for a well
    formed mapping with distinct keys, rewriting the text that
    [write_sig_library] produced with the same mapping gives it back
    unchanged. *)
Theorem update_text_sig_library (sig_info : Dict.t string) :
  wf_sig_info sig_info -> NoDup (Dict.keys sig_info) ->
  update_text sig_info (join_lines (sig_library_lines sig_info) ++ nl)
  = join_lines (sig_library_lines sig_info) ++ nl.
Proof. apply update_text_library_fixed. Qed.

Lemma update_text_sig_library_witness :
  let sig_info := [("foo", "iij"); ("bar", "vp")] in
  update_text sig_info (join_lines (sig_library_lines sig_info) ++ nl)
  = join_lines (sig_library_lines sig_info) ++ nl.
Proof.
  apply update_text_sig_library; [reflexivity|].
  apply NoDup_cons. split; [by intros ?%list_elem_of_singleton|].
  apply NoDup_singleton.
Defined.

Lemma remove_text_library_empty (sig_info : Dict.t string) :
  wf_sig_info sig_info ->
  remove_text sig_info (join_lines (sig_library_lines sig_info) ++ nl)
  = join_lines (sig_library_lines Dict.empty) ++ nl.
Proof.
  intros Hwf. unfold remove_text.
  rewrite splitlines_join
    by (by apply sig_library_lines_lines || apply sig_library_lines_nonempty).
  f_equal. f_equal. rewrite sig_library_lines_eq, !List.filter_app.
  assert (List.filter (fun l => negb (strip_line sig_info l))
                      (List.map sig_line (sorted_items sig_info)) = []) as ->.
  { assert (Hall : Forall (fun it => it ∈ Dict.items sig_info)
                          (sorted_items sig_info)).
    { apply Forall_forall. intros it Hit. by rewrite <- sorted_items_perm. }
    induction Hall as [|[sym sig] l Hin _ IH]; simpl; [done|].
    destruct (wf_sig_info_elem _ _ _ Hwf Hin) as [Hsym _].
    rewrite (strip_line_key sig_info sym); [done| |].
    - unfold Dict.keys. rewrite list_map_fmap. apply list_elem_of_fmap.
      by exists (sym, sig).
    - by apply startswith_strip_sig_line. }
  simpl List.filter. by rewrite !strip_line_no_sig.
Qed.

(** X18: for a mapping of identifiers to tag strings, Remove would empty
    the consolidated file: stripping the text that [write_sig_library]
    produced leaves the file of the empty mapping. This is what the test
    on [libsigs.js] in [remove_sigs] avoids. *)
Theorem remove_text_sig_library (sig_info : Dict.t string) :
  wf_sig_info sig_info ->
  remove_text sig_info (join_lines (sig_library_lines sig_info) ++ nl)
  = join_lines (sig_library_lines Dict.empty) ++ nl.
Proof. apply remove_text_library_empty. Qed.

Lemma remove_text_sig_library_witness :
  let sig_info := [("foo", "iij"); ("bar", "vp")] in
  remove_text sig_info (join_lines (sig_library_lines sig_info) ++ nl)
  = join_lines (sig_library_lines Dict.empty) ++ nl.
Proof. apply remove_text_sig_library. reflexivity. Defined.

(** ** Update and Remove on a tree *)

Section Passes.

Implicit Types (sig_info : Dict.t string) (fs : tree)
  (p : list string) (text l : string).

Lemma forallb_reached ok (files : list (list string)) :
  forallb ok files = true -> reached ok files = files.
Proof.
  induction files as [|f files IH]; simpl; [done|].
  intros [-> H]%andb_prop. by rewrite IH.
Qed.

Lemma update_sigs_run sig_info fs :
  exists fs',
    update_sigs sig_info fs
    = (if forallb (is_file fs) (sig_files fs) then Completed fs' else Raised fs')
    /\ forall p, fs' !! p
                 = if decide (p ∈ reached (is_file fs) (sig_files fs))
                   then node_map (update_text sig_info) <$> fs !! p
                   else fs !! p.
Proof.
  destruct (pass_run (fun _ => false) (update_text sig_info) _
              (fun _ _ => eq_refl) fs) as (fs' & Hrun & Hl).
  exists fs'. split; [exact Hrun|]. intros p. rewrite Hl. apply decide_ext.
  split; [by intros [? _] | by split].
Qed.

Lemma remove_sigs_run sig_info fs :
  exists fs',
    remove_sigs sig_info fs
    = (if forallb (fun p => is_sig_library p || is_file fs p) (sig_files fs)
       then Completed fs' else Raised fs')
    /\ forall p,
         fs' !! p
         = if decide (p ∈ reached (fun p => is_sig_library p || is_file fs p)
                                  (sig_files fs)
                      /\ is_sig_library p = false)
           then node_map (remove_text sig_info) <$> fs !! p
           else fs !! p.
Proof.
  apply (pass_run is_sig_library (remove_text sig_info)).
  intros file fs'. unfold is_sig_library. by destruct (String.eqb _ _).
Qed.

Lemma final_if (b : bool) (fs : tree) :
  final (if b then Completed fs else Raised fs) = fs.
Proof. by destruct b. Qed.

Lemma completed_if (b : bool) (fs : tree) :
  is_Some (completed (if b then Completed fs else Raised fs)) <-> b = true.
Proof. destruct b; simpl; split; by try intros [??]. Qed.

Lemma update_sigs_kind sig_info fs p :
  kind <$> final (update_sigs sig_info fs) !! p = kind <$> fs !! p.
Proof.
  destruct (update_sigs_run sig_info fs) as (fs' & -> & Hl).
  rewrite final_if, Hl. case_decide; [|done]. by destruct (fs !! p) as [[]|].
Qed.

Lemma remove_sigs_kind sig_info fs p :
  kind <$> final (remove_sigs sig_info fs) !! p = kind <$> fs !! p.
Proof.
  destruct (remove_sigs_run sig_info fs) as (fs' & -> & Hl).
  rewrite final_if, Hl. case_decide; [|done]. by destruct (fs !! p) as [[]|].
Qed.

(** The lines of a text that Update or Remove wrote. *)
Lemma splitlines_written (ls : list string) :
  Forall is_line ls ->
  splitlines (join_lines ls ++ nl) = match ls with [] => [""] | _ => ls end.
Proof. intros H. destruct ls; [done|]. by apply splitlines_join. Qed.

Lemma splitlines_update_text sig_info text :
  wf_sig_info sig_info ->
  splitlines (update_text sig_info text)
  = match splitlines text with
    | [] => [""]
    | ls => List.map (update_line sig_info) ls
    end.
Proof.
  intros Hwf. unfold update_text. rewrite splitlines_written.
  - by destruct (splitlines text).
  - pose proof (splitlines_from_lines text false) as H.
    fold (splitlines text) in H.
    induction H; simpl; constructor; [by apply update_line_line | done].
Qed.

Lemma filter_lines (f : string -> bool) (ls : list string) :
  Forall is_line ls -> Forall is_line (List.filter f ls).
Proof. induction 1; simpl; [constructor|]. case_match; [by constructor | done]. Qed.

Lemma splitlines_remove_text sig_info text :
  splitlines (remove_text sig_info text)
  = match List.filter (fun l => negb (strip_line sig_info l)) (splitlines text) with
    | [] => [""]
    | ls => ls
    end.
Proof.
  unfold remove_text. rewrite splitlines_written.
  - by destruct (List.filter _ _).
  - apply filter_lines, (splitlines_from_lines text false).
Qed.

Lemma remove_text_clean sig_info text :
  Forall (fun l => strip_line sig_info l = false)
         (splitlines (remove_text sig_info text)).
Proof.
  rewrite splitlines_remove_text.
  assert (Forall (fun l => strip_line sig_info l = false)
            (List.filter (fun l => negb (strip_line sig_info l)) (splitlines text)))
    as H.
  { apply Forall_forall. intros l [_ Hl]%list_elem_of_In%filter_In.
    by apply negb_true_iff. }
  destruct (List.filter _ _); [|done].
  constructor; [apply strip_line_empty | constructor].
Qed.

(** Update leaves a line alone that is the annotation of no mapped
    symbol. *)
Lemma update_line_not_stripped sig_info l :
  strip_line sig_info l = false -> update_line sig_info l = l.
Proof. intros H%strip_line_false. by apply update_line_unmapped. Qed.

(** Update does not change whether a line is the annotation of a mapped
    symbol. *)
Lemma strip_line_update_line sig_info l :
  wf_sig_info sig_info -> is_line l ->
  strip_line sig_info (update_line sig_info l) = strip_line sig_info l.
Proof.
  intros Hwf Hl. unfold update_line. case_match; [done|]. unfold Dict.items.
  assert (Hsub : forall d : Dict.t string,
             wf_sig_info d ->
             strip_line d (update_line_items sig_info (strip l) l)
             = strip_line d l); [|by apply Hsub].
  unfold strip_line, to_remove, Dict.keys.
  induction d as [|[sym sig] d IH]; [done|].
  intros (Hsym & _ & Hd)%wf_sig_info_cons. simpl.
  by rewrite update_line_items_key, IH.
Qed.

(** What [strip_line] tests, said of the line. *)
Lemma lstrip_split l :
  exists blanks,
    all_chars is_space blanks = true /\ l = blanks ++ lstrip l
    /\ head_is_space (lstrip l) = false.
Proof.
  induction l as [|c l (blanks & Hb & Hl & Hh)]; [by exists ""|].
  simpl. destruct (is_space c) eqn:Hc.
  - exists (String c blanks). simpl. rewrite Hc, Hb. by rewrite <- Hl.
  - exists "". by rewrite <- Hc.
Qed.

Lemma lstrip_head l : head_is_space l = false -> lstrip l = l.
Proof. destruct l as [|c l]; simpl; [done|]. by intros ->. Qed.

Lemma annotates_iff sym l :
  startswith (strip l) (sym ++ "__sig:") = true <-> annotates sym l.
Proof.
  rewrite startswith_strip_key. split.
  - rewrite startswith_strip_prefix.
    destruct (strip_prefix (sym ++ "__sig:") (lstrip l)) as [rest|] eqn:E; [|done].
    intros _. apply strip_prefix_Some in E.
    destruct (lstrip_split l) as (blanks & Hb & Hl & Hh).
    exists blanks, rest. rewrite <- (string_app_assoc sym), <- E. done.
  - intros (blanks & rest & Hb & Hh & ->).
    rewrite lstrip_indent, lstrip_head by done.
    rewrite <- (string_app_assoc sym). apply startswith_app.
Qed.

Lemma strip_line_annotates sig_info l :
  strip_line sig_info l = true <->
  exists sym, sym ∈ Dict.keys sig_info /\ annotates sym l.
Proof.
  unfold strip_line, to_remove, Dict.keys.
  induction sig_info as [|[sym sig] d IH]; simpl.
  - split; [done|]. by intros (? & ?%elem_of_nil & _).
  - rewrite orb_true_iff, IH, annotates_iff. split.
    + intros [H|(s & Hs & H)]; [exists sym; split; [left|done]|].
      exists s. split; [by right|done].
    + intros (s & [->|Hs]%elem_of_cons & H); [by left|]. right. eauto.
Qed.

End Passes.

(** X19: which lines Remove takes out. A line is stripped exactly when
    what follows its leading whitespace starts with [<sym>__sig:] for a
    key [sym] of the mapping. When every listed path, [libsigs.js]
    apart, is a regular file, Remove completes, and each of these files
    then holds the lines that it held and that are not stripped, in their
    order; a file left without lines holds one empty line. *)
Theorem remove_sigs_clean (sig_info : Dict.t string) (fs : tree) :
  (forall p : list string,
      p ∈ sig_files fs -> basename p <> "libsigs.js" -> is_file fs p = true) ->
  (forall l : string,
      strip_line sig_info l = true <->
      exists sym, sym ∈ Dict.keys sig_info /\ annotates sym l)
  /\ exists fs',
       remove_sigs sig_info fs = Completed fs'
       /\ forall (p : list string) (text : string),
            p ∈ sig_files fs -> basename p <> "libsigs.js" ->
            fs !! p = Some (File text) ->
            exists text',
              fs' !! p = Some (File text')
              /\ splitlines text'
                 = match List.filter (fun l => negb (strip_line sig_info l))
                                     (splitlines text) with
                   | [] => [""]
                   | ls => ls
                   end.
Proof.
  intros Hfiles. split; [apply strip_line_annotates|].
  destruct (remove_sigs_run sig_info fs) as (fs' & Hrun & Hl).
  assert (Hall : forallb (fun p => is_sig_library p || is_file fs p)
                         (sig_files fs) = true).
  { apply forallb_forall. intros p Hp%list_elem_of_In. unfold is_sig_library.
    destruct (String.eqb_spec (basename p) "libsigs.js"); [done|]. by apply Hfiles. }
  rewrite Hall in Hrun. rewrite (forallb_reached _ _ Hall) in Hl.
  exists fs'. split; [done|]. intros p text Hp Hbase Hf.
  exists (remove_text sig_info text). split; [|apply splitlines_remove_text].
  rewrite Hl, Hf, decide_True; [done|]. split; [done|].
  by apply String.eqb_neq.
Qed.

Lemma remove_sigs_clean_witness :
  let sig_info := [("foo", "iij")] in
  let fs : tree :=
    {[ ["src"] := Dir;
       ["src"; "libcore.js"] :=
         File ("  foo: () => 0," ++ nl ++ "  foo__sig: 'ii',  // it's" ++ nl) ]} in
  (forall l : string,
      strip_line sig_info l = true <->
      exists sym, sym ∈ Dict.keys sig_info /\ annotates sym l)
  /\ exists fs',
       remove_sigs sig_info fs = Completed fs'
       /\ forall (p : list string) (text : string),
            p ∈ sig_files fs -> basename p <> "libsigs.js" ->
            fs !! p = Some (File text) ->
            exists text',
              fs' !! p = Some (File text')
              /\ splitlines text'
                 = match List.filter (fun l => negb (strip_line sig_info l))
                                     (splitlines text) with
                   | [] => [""]
                   | ls => ls
                   end.
Proof.
  apply remove_sigs_clean. intros p Hp _. vm_compute in Hp.
  apply list_elem_of_singleton in Hp as ->. reflexivity.
Defined.

(** X20: Update completes exactly when every listed path is a regular
    file, and Remove when every listed path not named [libsigs.js] is
    one; a directory that the patterns list makes them raise. Completed
    or not, they create nothing and delete nothing, a directory stays a
    directory and a file a file, every path that is not listed is as it
    was, and Remove leaves what is named [libsigs.js] as it was. *)
Theorem passes_frame (sig_info : Dict.t string) (fs : tree) :
  (is_Some (completed (update_sigs sig_info fs)) <->
   forall p : list string, p ∈ sig_files fs -> is_file fs p = true)
  /\ (is_Some (completed (remove_sigs sig_info fs)) <->
      forall p : list string,
        p ∈ sig_files fs -> basename p <> "libsigs.js" -> is_file fs p = true)
  /\ forall p : list string,
       kind <$> final (update_sigs sig_info fs) !! p = kind <$> fs !! p
       /\ kind <$> final (remove_sigs sig_info fs) !! p = kind <$> fs !! p
       /\ (p ∉ sig_files fs ->
           final (update_sigs sig_info fs) !! p = fs !! p
           /\ final (remove_sigs sig_info fs) !! p = fs !! p)
       /\ (basename p = "libsigs.js" ->
           final (remove_sigs sig_info fs) !! p = fs !! p).
Proof.
  split_and!.
  - destruct (update_sigs_run sig_info fs) as (fs' & -> & _).
    rewrite completed_if, forallb_forall.
    split; intros H p Hp; apply H; by apply list_elem_of_In.
  - destruct (remove_sigs_run sig_info fs) as (fs' & -> & _).
    rewrite completed_if, forallb_forall. unfold is_sig_library. split.
    + intros H p Hp%list_elem_of_In Hbase%String.eqb_neq.
      specialize (H p Hp). by rewrite Hbase in H.
    + intros H p Hp%list_elem_of_In.
      destruct (String.eqb_spec (basename p) "libsigs.js"); [done|]. by apply H.
  - intros p. split_and!.
    + apply update_sigs_kind.
    + apply remove_sigs_kind.
    + intros Hp.
      destruct (update_sigs_run sig_info fs) as (fs1 & -> & Hl1),
               (remove_sigs_run sig_info fs) as (fs2 & -> & Hl2).
      rewrite !final_if, Hl1, Hl2.
      rewrite !decide_False; [done| |]; [intros [?%reached_subseteq _]|intros ?%reached_subseteq]; done.
    + intros Hbase.
      destruct (remove_sigs_run sig_info fs) as (fs2 & -> & Hl2).
      rewrite final_if, Hl2. rewrite decide_False; [done|].
      intros [_ H]. unfold is_sig_library in H. rewrite Hbase in H. done.
Qed.

(** X21: the two passes compose: Update after Remove changes nothing, and
    for a well formed mapping Remove after Update, the order of [main],
    gives what Remove alone gives. *)
Theorem update_remove_text (sig_info : Dict.t string) (text : string) :
  update_text sig_info (remove_text sig_info text) = remove_text sig_info text
  /\ (wf_sig_info sig_info ->
      remove_text sig_info (update_text sig_info text) = remove_text sig_info text).
Proof.
  split.
  - unfold update_text at 1. rewrite splitlines_remove_text.
    pose proof (remove_text_clean sig_info text) as Hclean.
    rewrite splitlines_remove_text in Hclean. unfold remove_text.
    destruct (List.filter _ (splitlines text)) as [|l ls]; [done|].
    f_equal. f_equal. induction Hclean as [|x xs Hx _ IH]; simpl; [done|].
    by rewrite update_line_not_stripped, IH.
  - intros Hwf. unfold remove_text at 1. rewrite splitlines_update_text by done.
    unfold remove_text.
    pose proof (splitlines_from_lines text false) as Hls.
    fold (splitlines text) in Hls.
    destruct (splitlines text) as [|l ls] eqn:E.
    + simpl. by rewrite strip_line_empty.
    + f_equal. f_equal. clear E. induction Hls as [|x xs Hx _ IH]; simpl; [done|].
      rewrite strip_line_update_line by done.
      destruct (strip_line sig_info x) eqn:Hs; simpl; [done|].
      by rewrite update_line_not_stripped, IH.
Qed.

(** X22: Update does not change whether a line is the annotation of a
    mapped symbol, and it returns unchanged every line that is none. *)
Theorem update_line_annotation_kept (sig_info : Dict.t string) (l : string) :
  wf_sig_info sig_info -> is_line l ->
  strip_line sig_info (update_line sig_info l) = strip_line sig_info l
  /\ (strip_line sig_info l = false -> update_line sig_info l = l).
Proof.
  intros Hwf Hl. split; [by apply strip_line_update_line|].
  apply update_line_not_stripped.
Qed.

Lemma update_line_annotation_kept_witness :
  let sig_info := [("foo", "iij")] in
  let l := "  foo__sig: 'ii',  // it's" in
  strip_line sig_info (update_line sig_info l) = strip_line sig_info l
  /\ (strip_line sig_info l = false -> update_line sig_info l = l).
Proof. apply update_line_annotation_kept; reflexivity. Defined.

(** X23: for a mapping of identifiers to tag strings, a line with fewer
    than two single quotes holds no quoted signature to replace: Update
    returns it unchanged. *)
Theorem update_line_few_quotes (sig_info : Dict.t string) (l : string) :
  wf_sig_info sig_info -> quotes l <= 1 -> update_line sig_info l = l.
Proof.
  intros Hwf Hq. unfold update_line. case_match; [done|]. unfold Dict.items.
  generalize (strip l). intros stripped.
  induction sig_info as [|[sym sig] d IH]; [done|].
  apply wf_sig_info_cons in Hwf as (Hsym & _ & Hd).
  rewrite update_line_items_cons. case_match; [|by apply IH].
  by apply re_sub_sig_from_few_quotes.
Qed.

Lemma update_line_few_quotes_witness :
  update_line [("foo", "iij")] "  foo__sig: ii, // it's" = "  foo__sig: ii, // it's".
Proof. apply update_line_few_quotes; [reflexivity | vm_compute; lia]. Defined.

(** X24: for a well formed mapping, the text that Update writes reads
    back as the updated lines of the text it read, one for one; a text
    without lines comes back as a single empty line. *)
Theorem update_text_lines (sig_info : Dict.t string) (text : string) :
  wf_sig_info sig_info ->
  splitlines (update_text sig_info text)
  = match splitlines text with
    | [] => [""]
    | l :: ls => List.map (update_line sig_info) (l :: ls)
    end.
Proof. apply splitlines_update_text. Qed.

Lemma update_text_lines_witness :
  let sig_info := [("foo", "iij")] in
  let text := "  foo__sig: 'ii'," ++ nl ++ "  foo: () => 0," in
  splitlines (update_text sig_info text)
  = ["  foo__sig: 'iij',"; "  foo: () => 0,"].
Proof.
  apply (update_text_lines [("foo", "iij")]
           ("  foo__sig: 'ii'," ++ nl ++ "  foo: () => 0,")).
  reflexivity.
Defined.

(** ** The end of [main] *)

Section Main.

Implicit Types (sig_info : Dict.t string) (fs : tree) (output p : list string).

(** A file that Update leaves as it is goes unchanged through the
    optional Update, completed or not. *)
Lemma main_update_step sig_info fs output (update : bool) text :
  update_text sig_info text = text ->
  fs !! output = Some (File text) ->
  final (if update then update_sigs sig_info fs else Completed fs) !! output
  = Some (File text).
Proof.
  intros Hfix Hout. destruct update; [|done].
  destruct (update_sigs_run sig_info fs) as (fs1 & -> & Hl).
  rewrite final_if, Hl, Hout. case_decide; [|done]. simpl. by rewrite Hfix.
Qed.

Lemma write_sig_library_writable sig_info fs output :
  writable fs output ->
  exists fs0,
    write_sig_library output sig_info fs = Some fs0
    /\ fs0 !! output = Some (File (join_lines (sig_library_lines sig_info) ++ nl)).
Proof.
  intros Hw. unfold write_sig_library.
  destruct (write_file_writable output
              (join_lines (sig_library_lines sig_info) ++ nl) fs Hw) as [-> _].
  eexists. split; [done|]. apply lookup_insert_eq.
Qed.

End Main.

(** X25: for a mapping of identifiers to tag strings with distinct keys
    and an output named [libsigs.js] that can be written, the end of
    [main] leaves the consolidated file as [write_sig_library] wrote it,
    whatever the options and whether the passes complete or raise: Update
    finds nothing to change in it and Remove passes it by. *)
Theorem main_keeps_sig_library (output : list string) (update remove : bool)
    (sig_info : Dict.t string) (fs : tree) :
  wf_sig_info sig_info -> NoDup (Dict.keys sig_info) ->
  basename output = "libsigs.js" -> writable fs output ->
  final (main output update remove sig_info fs) !! output
  = Some (File (join_lines (sig_library_lines sig_info) ++ nl)).
Proof.
  intros Hwf Hnd Hbase Hw. unfold main.
  destruct (write_sig_library_writable sig_info fs output Hw) as (fs0 & -> & Hout).
  pose proof (main_update_step sig_info fs0 output update _
                (update_text_library_fixed sig_info Hwf Hnd) Hout) as Hstep.
  destruct (if update then update_sigs sig_info fs0 else Completed fs0)
    as [fs1|fs1]; simpl in Hstep; [|done].
  destruct remove; [|done].
  destruct (remove_sigs_run sig_info fs1) as (fs2 & -> & Hl).
  rewrite final_if, Hl, decide_False; [done|].
  intros [_ H]. unfold is_sig_library in H. by rewrite Hbase in H.
Qed.

Lemma main_keeps_sig_library_witness :
  let sig_info := [("foo", "iij")] in
  let output := ["src"; "lib"; "libsigs.js"] in
  let fs : tree :=
    {[ ["src"] := Dir; ["src"; "lib"] := Dir;
       ["src"; "lib"; "libcore.js"] := File "  foo__sig: 'ii',";
       ["src"; "lib"; "closure.js"] := Dir ]} in
  final (main output true true sig_info fs) !! output
  = Some (File (join_lines (sig_library_lines sig_info) ++ nl)).
Proof.
  apply main_keeps_sig_library;
    [reflexivity | apply NoDup_singleton | reflexivity | by split_and!].
Defined.

(** X26: for a mapping of identifiers to tag strings with distinct keys,
    [main] with [--remove] strips the file that it has just written when
    the output is among the listed paths and is not named [libsigs.js]:
    if every listed path is a regular file, [main] completes and the
    output ends as the consolidated file of the empty mapping. *)
Theorem main_remove_strips_output (output : list string) (update : bool)
    (sig_info : Dict.t string) (fs fs0 : tree) :
  wf_sig_info sig_info -> NoDup (Dict.keys sig_info) ->
  write_sig_library output sig_info fs = Some fs0 ->
  output ∈ sig_files fs0 -> basename output <> "libsigs.js" ->
  (forall p : list string, p ∈ sig_files fs0 -> is_file fs0 p = true) ->
  exists fs',
    main output update true sig_info fs = Completed fs'
    /\ fs' !! output = Some (File (join_lines (sig_library_lines Dict.empty) ++ nl)).
Proof.
  intros Hwf Hnd Hwrite Hin Hbase Hfiles. unfold main. rewrite Hwrite.
  apply write_file_Some in Hwrite as [_ Hfs0].
  assert (Hout : fs0 !! output
                 = Some (File (join_lines (sig_library_lines sig_info) ++ nl)))
    by (rewrite Hfs0; apply lookup_insert_eq).
  assert (Hall : forallb (is_file fs0) (sig_files fs0) = true).
  { apply forallb_forall. intros p Hp%list_elem_of_In. by apply Hfiles. }
  assert (exists fs1,
             (if update then update_sigs sig_info fs0 else Completed fs0)
             = Completed fs1
             /\ fs1 !! output = fs0 !! output
             /\ forall p, kind <$> fs1 !! p = kind <$> fs0 !! p)
    as (fs1 & -> & Hout1 & Hk).
  { destruct update; [|by exists fs0].
    pose proof (update_sigs_kind sig_info fs0) as Hk.
    pose proof (main_update_step sig_info fs0 output true _
                  (update_text_library_fixed sig_info Hwf Hnd) Hout) as Hstep.
    destruct (update_sigs_run sig_info fs0) as (fs1 & Hrun & _).
    rewrite Hall in Hrun. rewrite Hrun in Hk, Hstep. simpl in *.
    exists fs1. by rewrite Hstep, Hout. }
  destruct (remove_sigs_run sig_info fs1) as (fs2 & -> & Hl).
  rewrite (sig_files_kind fs0 fs1 Hk) in *.
  assert (Hall2 : forallb (fun p => is_sig_library p || is_file fs1 p)
                          (sig_files fs0) = true).
  { apply forallb_forall. intros p Hp%list_elem_of_In.
    rewrite (is_file_kind fs0 fs1 Hk), Hfiles by done. apply orb_true_r. }
  rewrite Hall2. rewrite (forallb_reached _ _ Hall2) in Hl.
  exists fs2. split; [done|].
  rewrite Hl, Hout1, Hout, decide_True.
  - simpl. by rewrite remove_text_library_empty.
  - split; [done|]. by apply String.eqb_neq.
Qed.

Lemma main_remove_strips_output_witness :
  let sig_info := [("foo", "iij")] in
  let output := ["src"; "lib"; "sigs.js"] in
  let fs : tree := {[ ["src"] := Dir; ["src"; "lib"] := Dir ]} in
  exists fs',
    main output false true sig_info fs = Completed fs'
    /\ fs' !! output = Some (File (join_lines (sig_library_lines Dict.empty) ++ nl)).
Proof.
  intros sig_info output fs.
  eapply (main_remove_strips_output output false sig_info fs);
    [reflexivity | apply NoDup_singleton | reflexivity | | discriminate | ].
  - vm_compute. left.
  - intros p Hp. vm_compute in Hp.
    apply list_elem_of_singleton in Hp as ->. reflexivity.
Defined.

(** ** When reconciliation succeeds *)

Section Success.

Lemma valuetype_to_chr_Some (a b : Type_) :
  is_Some (valuetype_to_chr a b) <-> slot_ok a b.
Proof.
  unfold slot_ok. destruct a, b; simpl; split;
    try (intros _; by eauto); try (by intros [? ?]);
    try (by intros [?|[? ?]]).
Qed.

Lemma append_param_chrs_Some ps : forall rtn,
  is_Some (append_param_chrs rtn ps)
  <-> Forall (fun pp => slot_ok pp.1 pp.2) ps.
Proof.
  induction ps as [|[a b] ps IH]; intros rtn; simpl.
  - split; [constructor | by eexists].
  - rewrite Forall_cons, <- valuetype_to_chr_Some. simpl.
    destruct (valuetype_to_chr a b) as [c|].
    + rewrite IH. split; [by split | by intros [_ ?]].
    + split; [by intros [? ?] | by intros [[? ?] _]].
Qed.

Lemma Forall_combine {A B} (P : A -> B -> Prop) (l1 : list A) : forall l2 : list B,
  length l1 = length l2 ->
  Forall (fun pp => P pp.1 pp.2) (List.combine l1 l2) <-> Forall2 P l1 l2.
Proof.
  induction l1 as [|a l1 IH]; intros [|b l2]; simpl; try done.
  intros [= H]. by rewrite Forall_cons, Forall2_cons, (IH _ H).
Qed.

End Success.

(** X27: reconciliation succeeds exactly when there is at most one return
    value and the return values and the parameters of the two types match
    slot by slot, each slot holding the same type at both widths or a
    32-bit integer at wasm32 and a 64-bit integer at wasm64. *)
Theorem functype_to_str_succeeds_iff (t t64 : FuncType) :
  is_Some (functype_to_str t t64)
  <-> length (returns t) <= 1
      /\ Forall2 slot_ok (returns t) (returns t64)
      /\ Forall2 slot_ok (params t) (params t64).
Proof.
  unfold functype_to_str. split.
  - destruct (Nat.eqb_spec (length (returns t)) (length (returns t64))) as [Hr|];
      [|by intros [? ?]].
    destruct (Nat.eqb_spec (length (params t)) (length (params t64))) as [Hp|];
      [|by intros [? ?]].
    simpl. destruct (returns t) as [|x [|x' xs]]; simpl in *.
    + destruct (returns t64); [|done].
      rewrite append_param_chrs_Some, Forall_combine by done.
      intros ?. split_and!; [lia | constructor | done].
    + destruct (returns t64) as [|x64 [|??]]; try done.
      destruct (valuetype_to_chr x x64) as [c|] eqn:Hc; [|by intros [? ?]].
      rewrite append_param_chrs_Some, Forall_combine by done.
      intros ?. split_and!; [lia| |done].
      constructor; [|constructor]. apply valuetype_to_chr_Some. by eexists.
    + by intros [? ?].
  - intros (Hone & Hret & Hpar).
    pose proof (Forall2_length _ _ _ Hpar) as Hp.
    rewrite Hp, Nat.eqb_refl.
    destruct (returns t) as [|x [|x' xs]]; [| |simpl in Hone; lia];
      inversion Hret as [|? x64 ? xs64 Hx Hxs]; subst; simpl.
    + by rewrite append_param_chrs_Some, Forall_combine.
    + inversion Hxs; subst. simpl.
      apply valuetype_to_chr_Some in Hx as [c ->].
      by rewrite append_param_chrs_Some, Forall_combine.
Qed.

(** X28: with the same symbols asked of the wasm32 and of the wasm64
    object file, the two results of [extract_sigs] have the same keys, so
    the test [sym in sig_info64] of the merge holds for every symbol it
    goes through. *)
Theorem extract_sigs_same_keys (symbols : list string)
    (imports imports64 : list Import) (types types64 : list FuncType)
    (sig_info32 sig_info64 : Dict.t FuncType) :
  extract_sigs symbols imports types = Some sig_info32 ->
  extract_sigs symbols imports64 types64 = Some sig_info64 ->
  forall sym, Dict.mem sig_info32 sym = Dict.mem sig_info64 sym.
Proof.
  unfold extract_sigs.
  intros (Hres & Hget & _)%extract_sigs_from_Some
         (Hres' & Hget' & _)%extract_sigs_from_Some sym.
  unfold Dict.mem. rewrite Hget, Hget'.
  destruct (decide (sym ∈ symbols)) as [Hs|Hs]; [|done].
  by destruct (Hres _ Hs) as [? ->], (Hres' _ Hs) as [? ->].
Qed.

Lemma extract_sigs_same_keys_witness :
  Dict.mem [("f", {| params := [I32]; returns := [] |})] "f"
  = Dict.mem [("f", {| params := [I64]; returns := [] |})] "f".
Proof.
  apply (extract_sigs_same_keys ["f"]
           [ {| field := "f"; type := 0 |} ] [ {| field := "f"; type := 0 |} ]
           [ {| params := [I32]; returns := [] |} ]
           [ {| params := [I64]; returns := [] |} ]); reflexivity.
Defined.

(** X29: the annotation line of a mapped symbol, with nothing but blanks
    before the symbol and no single quote after the one that closes the
    old signature, comes out of Update with the new signature between the
    quotes and every other character as it was. *)
Theorem update_line_rewrites_annotation (sig_info : Dict.t string)
    (sym sig indent old rest : string) :
  wf_sig_info sig_info -> Dict.get sig_info sym = Some sig ->
  all_chars is_space indent = true ->
  is_line (indent ++ sym ++ "__sig: '" ++ old ++ "'" ++ rest) ->
  quotes rest = 0 ->
  update_line sig_info (indent ++ sym ++ "__sig: '" ++ old ++ "'" ++ rest)
  = indent ++ sym ++ "__sig: '" ++ sig ++ "'" ++ rest.
Proof. apply update_line_annotated. Qed.

Lemma update_line_rewrites_annotation_witness :
  update_line [("bar", "v"); ("foo", "iij")]
              ("  " ++ "foo" ++ "__sig: '" ++ "ii" ++ "'" ++ ",  // comment")
  = "  " ++ "foo" ++ "__sig: '" ++ "iij" ++ "'" ++ ",  // comment".
Proof. apply update_line_rewrites_annotation; reflexivity. Defined.

(** ** The two glob patterns *)

Section Patterns.

Implicit Types (n pat pre : string).

Lemma fnmatch_star_nil pat : fnmatch (String "*" pat) "" = fnmatch pat "".
Proof. simpl. apply orb_false_r. Qed.

Lemma fnmatch_star_cons pat c n :
  fnmatch (String "*" pat) (String c n)
  = fnmatch pat (String c n) || fnmatch (String "*" pat) n.
Proof. reflexivity. Qed.

Lemma fnmatch_char p pat c n :
  Ascii.eqb p "*" = false -> Ascii.eqb p "?" = false ->
  fnmatch (String p pat) (String c n) = Ascii.eqb p c && fnmatch pat n.
Proof. intros H1 H2. simpl. by rewrite H1, H2. Qed.

Lemma fnmatch_char_nil p pat :
  Ascii.eqb p "*" = false -> fnmatch (String p pat) "" = false.
Proof. intros H1. simpl. by rewrite H1. Qed.

Lemma fnmatch_nil n : fnmatch "" n = true <-> n = "".
Proof. by destruct n. Qed.

(** A single star fits every name, and so do two. *)
Lemma fnmatch_star n : fnmatch "*" n = true.
Proof.
  induction n as [|c n IH]; [done|].
  rewrite fnmatch_star_cons, IH. apply orb_true_r.
Qed.

Lemma fnmatch_star_star n : fnmatch "**" n = true.
Proof.
  destruct n as [|c n]; [done|].
  by rewrite fnmatch_star_cons, fnmatch_star.
Qed.

Lemma fnmatch_dot_js n : fnmatch ".js" n = true <-> n = ".js".
Proof.
  destruct n as [|a n]; [done|]. rewrite fnmatch_char by done.
  destruct n as [|b n];
    [rewrite fnmatch_char_nil, andb_false_r by done; split; done|].
  rewrite fnmatch_char by done.
  destruct n as [|c n];
    [rewrite fnmatch_char_nil, !andb_false_r by done; split; done|].
  rewrite fnmatch_char, !andb_true_iff, fnmatch_nil, !Ascii.eqb_eq by done.
  split; [by intros (<- & <- & <- & ->) | by intros [= <- <- <- ->]].
Qed.

(** [*.js] fits the names that end in [.js]. *)
Lemma fnmatch_star_js n : fnmatch "*.js" n = true <-> exists pre, n = pre ++ ".js".
Proof.
  induction n as [|c n IH].
  - rewrite fnmatch_star_nil. split; [done|]. by intros [[|??] ?].
  - rewrite fnmatch_star_cons, orb_true_iff, fnmatch_dot_js, IH. split.
    + intros [->|[pre ->]]; [by exists "" | by exists (String c pre)].
    + intros [[|c' pre] E]; [by left|]. right. injection E as -> ->. by exists pre.
Qed.

Lemma match_path_src_js p :
  match_path ["src"; "*.js"] p = true <->
  exists name pre,
    p = ["src"; name] /\ name = pre ++ ".js" /\ startswith name "." = false.
Proof.
  destruct p as [|a [|name [|??]]]; cbn [match_path];
    rewrite ?andb_false_r;
    try (split; [done | by intros (? & ? & ? & _)]).
  change (match_component "src" a) with (String.eqb "src" a).
  change (match_component "*.js" name)
    with (negb (startswith name ".") && fnmatch "*.js" name).
  rewrite andb_true_r, !andb_true_iff, String.eqb_eq, negb_true_iff,
    fnmatch_star_js.
  split.
  - intros (<- & Hh & pre & ->). by exists (pre ++ ".js"), pre.
  - intros (name' & pre & [= <- <-] & -> & Hh). eauto.
Qed.

Lemma match_path_src_dir_js p :
  match_path ["src"; "**"; "*.js"] p = true <->
  exists dir name pre,
    p = ["src"; dir; name] /\ name = pre ++ ".js"
    /\ startswith dir "." = false /\ startswith name "." = false.
Proof.
  destruct p as [|a [|dir [|name [|??]]]]; cbn [match_path];
    rewrite ?andb_false_r;
    try (split; [done | by intros (? & ? & ? & ? & _)]).
  change (match_component "src" a) with (String.eqb "src" a).
  change (match_component "**" dir)
    with (negb (startswith dir ".") && fnmatch "**" dir).
  change (match_component "*.js" name)
    with (negb (startswith name ".") && fnmatch "*.js" name).
  rewrite fnmatch_star_star, !andb_true_r, !andb_true_iff, String.eqb_eq,
    !negb_true_iff, fnmatch_star_js.
  split.
  - intros (<- & Hd & Hh & pre & ->). by exists dir, (pre ++ ".js"), pre.
  - intros (dir' & name' & pre & [= <- <- <-] & -> & Hd & Hh). eauto.
Qed.

Lemma listable_two (fs : tree) (a b : string) :
  listable fs [a; b] = true <-> fs !! [a] = Some Dir.
Proof.
  unfold listable. simpl. destruct (fs !! [a]) as [[]|]; split; done.
Qed.

Lemma listable_three (fs : tree) (a b c : string) :
  listable fs [a; b; c] = true <->
  fs !! [a] = Some Dir /\ fs !! [a; b] = Some Dir.
Proof.
  unfold listable. simpl.
  destruct (fs !! [a]) as [[]|], (fs !! [a; b]) as [[]|]; split; (done || by intros []).
Qed.

End Patterns.

(** X30: Update and Remove visit each listed path once, and the paths
    listed are what exists, a regular file or a directory, at
    [src/<name>] and at [src/<dir>/<name>], where [src] and [dir] are
    directories, [name] ends in [.js] and neither [name] nor [dir] starts
    with a dot. *)
Theorem sig_files_spec (fs : tree) :
  NoDup (sig_files fs)
  /\ forall p : list string,
       p ∈ sig_files fs <->
       is_Some (fs !! p)
       /\ exists (dirs : list string) (name pre : string),
            p = ("src" :: dirs ++ [name])%list
            /\ length dirs <= 1
            /\ name = pre ++ ".js"
            /\ Forall (fun n => startswith n "." = false) (dirs ++ [name])
            /\ fs !! ["src"] = Some Dir
            /\ Forall (fun dir => fs !! ["src"; dir] = Some Dir) dirs.
Proof.
  split; [apply NoDup_sig_files|]. intros p.
  rewrite elem_of_sig_files, orb_true_iff, match_path_src_js,
    match_path_src_dir_js.
  split.
  - intros (Hp & H & Hl). split; [done|].
    destruct H as [(name & pre & -> & -> & Hh)|(dir & name & pre & -> & -> & Hd & Hh)].
    + exists [], (pre ++ ".js"), pre.
      apply listable_two in Hl. split_and!; [done|simpl; lia|done| |done|done].
      by repeat constructor.
    + exists [dir], (pre ++ ".js"), pre.
      apply listable_three in Hl as [??].
      split_and!; [done|simpl; lia|done| |done|]; by repeat constructor.
  - intros (Hp & dirs & name & pre & -> & Hlen & -> & Hall & Hsrc & Hdirs).
    split; [done|].
    destruct dirs as [|dir [|??]]; [| |simpl in Hlen; lia].
    + split; [|by apply listable_two].
      left. exists (pre ++ ".js"), pre. split_and!; [done..|].
      by inversion Hall.
    + inversion Hdirs; subst. split; [|by apply listable_three].
      right. exists dir, (pre ++ ".js"), pre.
      inversion Hall as [|? ? Hd Hrest]; subst. by inversion Hrest.
Qed.
